(** * DECI website: the secret-code detector and the Flappy mini-game

    A shallow embedding of the two pieces of logic of the site:

    - [SecretCode]: the class [SecretCodeDetector] (keyboard sequence
      matcher, Konami code);
    - [Flappy]: the component [FlappyGame] (signals, keyboard controls,
      per-frame update, obstacle recycling, collision detection, crash and
      close paths), run by an explicit event loop.

    JavaScript numbers are modelled as exact rationals ([Q]); integer
    identifiers and the score as [Z]; strings as [string]; arrays as lists
    read with [!!] and written with [<[i:=v]>]. *)

From stdpp Require Import base list strings sorting.
From Stdlib Require Import ZArith QArith Qminmax Lia Lqa.

(* ===================================================================== *)
(** ** The secret-code detector                                           *)
(* ===================================================================== *)

Module SecretCode.

(** The private fields of the class.  [callback] and [boundHandler] are
    code, not data: the callback is observed through the invocations that
    [handleKeyDown] reports, and [enabled] says whether [boundHandler] is
    subscribed to the document's [keydown] events. *)
Record SecretCodeDetector := {
  sequence : list string;
  secretCode : list string;
  enabled : bool
}.

(** One invocation of the callback, with the window ([this.sequence]) as it
    is at the moment the callback is entered. *)
Record Invocation := { windowAtCall : list string }.

Definition new (code : list string) : SecretCodeDetector :=
  {| sequence := []; secretCode := code; enabled := false |}.

Definition start (d : SecretCodeDetector) : SecretCodeDetector :=
  if enabled d then d
  else {| sequence := sequence d; secretCode := secretCode d; enabled := true |}.

Definition stop (d : SecretCodeDetector) : SecretCodeDetector :=
  if negb (enabled d) then d
  else {| sequence := []; secretCode := secretCode d; enabled := false |}.

(** [a !== b] on array reads, where an out-of-range read is [undefined]. *)
Definition strictNe (a b : option string) : bool := negb (bool_decide (a = b)).

(** The [for] loop of [sequenceMatches], from index [i], with [n] iterations
    left: the first differing position returns [false]. *)
Fixpoint matchLoop (sq code : list string) (i n : nat) : bool :=
  match n with
  | O => true
  | S n' => if strictNe (sq !! i) (code !! i) then false
            else matchLoop sq code (S i) n'
  end.

Definition sequenceMatches (d : SecretCodeDetector) : bool :=
  if negb (length (sequence d) =? length (secretCode d))%nat then false
  else matchLoop (sequence d) (secretCode d) 0 (length (secretCode d)).

(** [Array.prototype.shift]: drops the first element. *)
Definition shift (l : list string) : list string := tail l.

Definition handleKeyDown (d : SecretCodeDetector) (key : string)
  : SecretCodeDetector * list Invocation :=
  let pushed := sequence d ++ [key] in
  let trimmed :=
    if (length (secretCode d) <? length pushed)%nat then shift pushed else pushed in
  let d1 := {| sequence := trimmed; secretCode := secretCode d; enabled := enabled d |} in
  if sequenceMatches d1 then
    let d2 := {| sequence := []; secretCode := secretCode d; enabled := enabled d |} in
    (d2, [ {| windowAtCall := sequence d2 |} ])
  else (d1, []).

(** A [keydown] event on the document reaches the handler only while it is
    subscribed. *)
Definition keydown (d : SecretCodeDetector) (key : string)
  : SecretCodeDetector * list Invocation :=
  if enabled d then handleKeyDown d key else (d, []).

(** Feeding a stream of key presses: the invocations made at each key. *)
Fixpoint feed (d : SecretCodeDetector) (keys : list string)
  : SecretCodeDetector * list (list Invocation) :=
  match keys with
  | [] => (d, [])
  | k :: ks =>
      let (d1, inv) := keydown d k in
      let (d2, invs) := feed d1 ks in
      (d2, inv :: invs)
  end.

Definition fired (inv : list Invocation) : bool :=
  match inv with [] => false | _ :: _ => true end.

(** Whether the callback ran at each key of the stream, for a detector
    built on [code] and started. *)
Definition fires (code keys : list string) : list bool :=
  map fired (snd (feed (start (new code)) keys)).

Definition KONAMI_CODE : list string :=
  ["ArrowUp"; "ArrowUp"; "ArrowDown"; "ArrowDown";
   "ArrowLeft"; "ArrowRight"; "ArrowLeft"; "ArrowRight"; "b"; "a"].

Definition setupSecretCodeDetection : SecretCodeDetector :=
  start (new KONAMI_CODE).

(** *** The matcher in the words of the specification

    [observed] holds every key seen since the start or since the previous
    invocation; the callback fires at a key exactly when [observed] has at
    least [length T] keys and its last [length T] keys are [T]. *)

Definition lastKeys (n : nat) (observed : list string) : list string :=
  drop (length observed - n) observed.

Definition lastKeysAre (T observed : list string) : bool :=
  bool_decide (length T <= length observed ∧ lastKeys (length T) observed = T)%nat.

Fixpoint specFiresFrom (T observed keys : list string) : list bool :=
  match keys with
  | [] => []
  | k :: ks =>
      if lastKeysAre T (observed ++ [k])
      then true :: specFiresFrom T [] ks
      else false :: specFiresFrom T (observed ++ [k]) ks
  end.

Definition specFires (T keys : list string) : list bool := specFiresFrom T [] keys.

(** What the specification expects of the callback at a key: one
    invocation, entered with the window already cleared, when the matcher
    fires; none otherwise. *)
Definition expectedInvocations (fire : bool) : list Invocation :=
  if fire then [ {| windowAtCall := [] |} ] else [].

(** [k] occurrences of [T], one after the other. *)
Fixpoint repeatPattern (k : nat) (T : list string) : list string :=
  match k with O => [] | S k' => T ++ repeatPattern k' T end.

End SecretCode.

(* ===================================================================== *)
(** ** The Flappy mini-game                                               *)
(* ===================================================================== *)

(** The four edges of a [DOMRect], as [getBoundingClientRect] returns them. *)
Module DOMRect.
Record t := { left : Q; top : Q; right : Q; bottom : Q }.
Definition width (r : t) : Q := right r - left r.
Definition height (r : t) : Q := bottom r - top r.
End DOMRect.

Module Flappy.
Local Open Scope Q_scope.

Record Obstacle := { id : Z; x : Q; height : Q; gapSize : Q }.

Record Position := { y : Q }.

(** The six signals of the component. *)
Record Signals := {
  score : Z;
  playerPosition : Position;
  obstacles : list Obstacle;
  gameActive : bool;
  gameWidth : Q;
  gameHeight : Q
}.

(** The element references: [true] once the element has been assigned.  The
    render assigns them; no code of the component resets them. *)
Record Refs := { gameRef : bool; playerRef : bool; gameAreaRef : bool }.

(** The continuations handed to the host and not yet run: callbacks given
    to [requestAnimationFrame], [onComplete] of the crash tween of
    [handleCollision], callbacks given to [setTimeout], [onComplete] of the
    exit tween of [closeGame]. *)
Record Pending := {
  animationFrames : nat;
  crashTweens : nat;
  restartTimeouts : nat;
  closeTweens : nat
}.

(** What an observer of the component can see happen, in order. *)
Inductive Effect :=
| InitGame                      (* initGame passed its guard *)
| Tick                          (* updateGame passed its guard *)
| Collision (obs : Obstacle)    (* handleCollision called for this obstacle *)
| CloseGame                     (* closeGame entered *)
| OnClose                       (* props.onClose called *)
| Cleanup.                      (* onCleanup ran *)

Record World := {
  signals : Signals;
  refs : Refs;
  mounted : bool;        (* the component's elements are in the document *)
  listening : bool;      (* handleControls is subscribed to keydown *)
  pending : Pending;
  randomCalls : nat;     (* calls made to Math.random so far *)
  nowCalls : nat;        (* calls made to Date.now so far *)
  trace : list Effect    (* most recent last *)
}.

(** *** Signal setters and host requests *)

Definition withSignals (f : Signals -> Signals) (w : World) : World :=
  {| signals := f (signals w); refs := refs w; mounted := mounted w;
     listening := listening w; pending := pending w;
     randomCalls := randomCalls w; nowCalls := nowCalls w; trace := trace w |}.

Definition withPending (f : Pending -> Pending) (w : World) : World :=
  {| signals := signals w; refs := refs w; mounted := mounted w;
     listening := listening w; pending := f (pending w);
     randomCalls := randomCalls w; nowCalls := nowCalls w; trace := trace w |}.

Definition emit (e : Effect) (w : World) : World :=
  {| signals := signals w; refs := refs w; mounted := mounted w;
     listening := listening w; pending := pending w;
     randomCalls := randomCalls w; nowCalls := nowCalls w;
     trace := trace w ++ [e] |}.

Definition setScore (f : Z -> Z) : World -> World :=
  withSignals (fun s =>
    {| score := f (score s); playerPosition := playerPosition s;
       obstacles := obstacles s; gameActive := gameActive s;
       gameWidth := gameWidth s; gameHeight := gameHeight s |}).

Definition setPlayerPosition (f : Position -> Position) : World -> World :=
  withSignals (fun s =>
    {| score := score s; playerPosition := f (playerPosition s);
       obstacles := obstacles s; gameActive := gameActive s;
       gameWidth := gameWidth s; gameHeight := gameHeight s |}).

Definition setObstacles (v : list Obstacle) : World -> World :=
  withSignals (fun s =>
    {| score := score s; playerPosition := playerPosition s;
       obstacles := v; gameActive := gameActive s;
       gameWidth := gameWidth s; gameHeight := gameHeight s |}).

Definition setGameActive (v : bool) : World -> World :=
  withSignals (fun s =>
    {| score := score s; playerPosition := playerPosition s;
       obstacles := obstacles s; gameActive := v;
       gameWidth := gameWidth s; gameHeight := gameHeight s |}).

Definition setGameWidth (v : Q) : World -> World :=
  withSignals (fun s =>
    {| score := score s; playerPosition := playerPosition s;
       obstacles := obstacles s; gameActive := gameActive s;
       gameWidth := v; gameHeight := gameHeight s |}).

Definition setGameHeight (v : Q) : World -> World :=
  withSignals (fun s =>
    {| score := score s; playerPosition := playerPosition s;
       obstacles := obstacles s; gameActive := gameActive s;
       gameWidth := gameWidth s; gameHeight := v |}).

(** [requestAnimationFrame(updateGame)] *)
Definition requestAnimationFrame : World -> World :=
  withPending (fun p =>
    {| animationFrames := S (animationFrames p); crashTweens := crashTweens p;
       restartTimeouts := restartTimeouts p; closeTweens := closeTweens p |}).

(** [gsap.to(playerRef, { ..., duration: 1, onComplete })] of [handleCollision] *)
Definition startCrashTween : World -> World :=
  withPending (fun p =>
    {| animationFrames := animationFrames p; crashTweens := S (crashTweens p);
       restartTimeouts := restartTimeouts p; closeTweens := closeTweens p |}).

(** [setTimeout(..., 1000)] of the crash tween's [onComplete] *)
Definition setRestartTimeout : World -> World :=
  withPending (fun p =>
    {| animationFrames := animationFrames p; crashTweens := crashTweens p;
       restartTimeouts := S (restartTimeouts p); closeTweens := closeTweens p |}).

(** [gsap.to(gameRef, { ..., duration: 0.5, onComplete: props.onClose })] *)
Definition startCloseTween : World -> World :=
  withPending (fun p =>
    {| animationFrames := animationFrames p; crashTweens := crashTweens p;
       restartTimeouts := restartTimeouts p; closeTweens := S (closeTweens p) |}).

(** Comparisons of numbers, as booleans. *)
Definition Qltb (a b : Q) : bool := if Qlt_le_dec a b then true else false.
Definition Qgtb (a b : Q) : bool := Qltb b a.

(** [Math.max(...xs)]; [None] stands for the [-Infinity] of an empty call. *)
Definition Math_max (xs : list Q) : option Q :=
  foldr (fun a acc => Some (match acc with Some m => Qmax a m | None => a end)) None xs.

(** The number of times [props.onClose] has been called. *)
Fixpoint countOnClose (t : list Effect) : nat :=
  match t with
  | [] => 0
  | OnClose :: t' => S (countOnClose t')
  | _ :: t' => countOnClose t'
  end.

Definition onCloseCalls (w : World) : nat := countOnClose (trace w).

Section Game.

(** The host: the [k]-th call of [Math.random] and of [Date.now]. *)
Variable Math_random : nat -> Q.
Variable Date_now : nat -> Z.

Definition callRandom (w : World) : Q * World :=
  (Math_random (randomCalls w),
   {| signals := signals w; refs := refs w; mounted := mounted w;
      listening := listening w; pending := pending w;
      randomCalls := S (randomCalls w); nowCalls := nowCalls w; trace := trace w |}).

Definition callNow (w : World) : Z * World :=
  (Date_now (nowCalls w),
   {| signals := signals w; refs := refs w; mounted := mounted w;
      listening := listening w; pending := pending w;
      randomCalls := randomCalls w; nowCalls := S (nowCalls w); trace := trace w |}).

(** [createObstacle(xPosition, id)].  [id || Date.now()] reads the clock
    only when [id] is falsy, that is [0]. *)
Definition createObstacle (xPosition : Q) (id0 : Z) (w : World) : Obstacle * World :=
  let gapSize0 := 30 in
  let (r, w1) := callRandom w in
  let height0 := 20 + r * 50 in
  let (id1, w2) := if (id0 =? 0)%Z then callNow w1 else (id0, w1) in
  ({| id := id1; x := xPosition; height := height0; gapSize := gapSize0 |}, w2).

(** [initGame], where [rect] is what [gameAreaRef.getBoundingClientRect()]
    returns. *)
Definition initGame (rect : DOMRect.t) (w : World) : World :=
  if negb (gameRef (refs w)) || negb (playerRef (refs w)) || negb (gameAreaRef (refs w))
  then w
  else
    let w := emit InitGame w in
    let w := setGameWidth (DOMRect.width rect) w in
    let w := setGameHeight (DOMRect.height rect) w in
    let w := setScore (fun _ => 0%Z) w in
    let (o1, w) := createObstacle (DOMRect.width rect + 50) 1 w in
    let (o2, w) := createObstacle (DOMRect.width rect + 200) 2 w in
    let (o3, w) := createObstacle (DOMRect.width rect + 350) 3 w in
    let w := setObstacles [o1; o2; o3] w in
    let w := setPlayerPosition (fun _ => {| y := 50 |}) w in
    let w := setGameActive true w in
    requestAnimationFrame w.

(** [closeGame] *)
Definition closeGame (w : World) : World :=
  let w := emit CloseGame w in
  let w := setGameActive false w in
  startCloseTween w.

(** [handleControls], on the [key] of the event. *)
Definition handleControls (key : string) (w : World) : World :=
  if negb (gameActive (signals w)) then w
  else if bool_decide (key = "ArrowUp") || bool_decide (key = " ") then
    setPlayerPosition (fun prev => {| y := Qmax 0 (y prev - 5) |}) w
  else if bool_decide (key = "ArrowDown") then
    setPlayerPosition (fun prev => {| y := Qmin 90 (y prev + 5) |}) w
  else if bool_decide (key = "Escape") then
    closeGame w
  else w.

(** *** The obstacle pass of [updateGame] *)

Definition moveLeft (obs : Obstacle) : Obstacle :=
  {| id := id obs; x := x obs - 2; height := height obs; gapSize := gapSize obs |}.

(** The body of the recycling loop at index [i]. *)
Definition recycleAt (i : nat) (st : list Obstacle * World) : list Obstacle * World :=
  let (newObstacles, w) := st in
  match newObstacles !! i with
  | Some o =>
      if Qltb (x o) (-50) then
        let w := setScore (fun prev => prev + 1)%Z w in
        match Math_max (map x newObstacles) with
        | Some rightmostX =>
            let (now, w) := callNow w in
            let (o', w) := createObstacle (rightmostX + 300) now w in
            (<[i := o']> newObstacles, w)
        | None => (newObstacles, w)   (* not reached: the array holds [o] *)
        end
      else st
  | None => st                        (* not reached: [i] is in range *)
  end.

(** The obstacle that replaces [newObstacles[i]] when it is recycled in
    world [w], with [rightmostX] the largest [x] of the array: what
    [createObstacle(rightmostX + 300, Date.now())] returns. *)
Definition replacement (rightmostX : Q) (w : World) : Obstacle :=
  {| id := if (Date_now (nowCalls w) =? 0)%Z then Date_now (S (nowCalls w))
           else Date_now (nowCalls w);
     x := rightmostX + 300;
     height := 20 + Math_random (randomCalls w) * 50;
     gapSize := 30 |}.

(** The three obstacles that [initGame] seeds in a game area [width] pixels
    wide, when [rc] calls to [Math.random] have been made before. *)
Definition seeds (width : Q) (rc : nat) : list Obstacle :=
  [ {| id := 1; x := width + 50; height := 20 + Math_random rc * 50; gapSize := 30 |};
    {| id := 2; x := width + 200; height := 20 + Math_random (S rc) * 50; gapSize := 30 |};
    {| id := 3; x := width + 350; height := 20 + Math_random (S (S rc)) * 50;
       gapSize := 30 |} ].

(** [for (let i = 0; i < newObstacles.length; i++) ...], from index [i];
    [fuel] bounds the number of iterations. *)
Fixpoint recycleLoop (fuel i : nat) (st : list Obstacle * World) : list Obstacle * World :=
  match fuel with
  | O => st
  | S fuel' =>
      if (i <? length (fst st))%nat then recycleLoop fuel' (S i) (recycleAt i st)
      else st
  end.

(** The updater given to [setObstacles]: shift, then recycle in place. *)
Definition moveObstacles (prev : list Obstacle) (w : World) : list Obstacle * World :=
  let updated := map moveLeft prev in
  recycleLoop (length updated) 0 (updated, w).

(** The part of the world that the obstacle pass can change: the score and
    the numbers of calls made to [Math.random] and [Date.now]. *)
Definition withCounters (sc : Z) (rc nc : nat) (w : World) : World :=
  {| signals :=
       {| score := sc; playerPosition := playerPosition (signals w);
          obstacles := obstacles (signals w); gameActive := gameActive (signals w);
          gameWidth := gameWidth (signals w); gameHeight := gameHeight (signals w) |};
     refs := refs w; mounted := mounted w; listening := listening w;
     pending := pending w; randomCalls := rc; nowCalls := nc; trace := trace w |}.

(** *** Rendering and collision detection *)

Inductive ElementId := obs_top (id : Z) | obs_bottom (id : Z).

#[export] Instance ElementId_eq_dec : EqDecision ElementId.
Proof. solve_decision. Defined.

(** The inline style of a barrier: [left] in pixels, anchored at the top
    ([top: 0]) or at the bottom ([bottom: 0]) of the game area, [height] in
    percent of the game area. *)
Inductive Anchor := AtTop | AtBottom.
Record Style := { leftPx : Q; anchor : Anchor; heightPct : Q }.

(** The two elements that [<For each={obstacles()}>] renders for one
    obstacle. *)
Definition topStyle (obstacle : Obstacle) : Style :=
  {| leftPx := x obstacle; anchor := AtTop; heightPct := height obstacle |}.

Definition bottomStyle (obstacle : Obstacle) : Style :=
  {| leftPx := x obstacle; anchor := AtBottom;
     heightPct := 100 - height obstacle - gapSize obstacle |}.

Definition renderObstacle (obstacle : Obstacle) : list (ElementId * Style) :=
  [ (obs_top (id obstacle), topStyle obstacle);
    (obs_bottom (id obstacle), bottomStyle obstacle) ].

Definition render (obs : list Obstacle) : list (ElementId * Style) :=
  flat_map renderObstacle obs.

(** The barrier elements of the document with their boxes, in document
    order; [layout] is the browser's box for a style. *)
Definition Document := list (ElementId * DOMRect.t).

Definition document (layout : Style -> DOMRect.t) (w : World) : Document :=
  if mounted w then map (fun p => (fst p, layout (snd p))) (render (obstacles (signals w)))
  else [].

(** [document.getElementById]: the first element with that id, in document
    order. *)
Fixpoint getElementById (doc : Document) (e : ElementId) : option DOMRect.t :=
  match doc with
  | [] => None
  | (e', r) :: doc' => if bool_decide (e' = e) then Some r else getElementById doc' e
  end.

(** The callback of [obstacles().forEach]: [true] when it calls
    [handleCollision]. *)
Definition hitsObstacle (player : DOMRect.t) (doc : Document) (obs : Obstacle) : bool :=
  match getElementById doc (obs_top (id obs)), getElementById doc (obs_bottom (id obs)) with
  | Some topRect, Some bottomRect =>
      if (Qgtb (DOMRect.right player) (DOMRect.left topRect)
          && Qltb (DOMRect.left player) (DOMRect.right topRect))
         || (Qgtb (DOMRect.right player) (DOMRect.left bottomRect)
             && Qltb (DOMRect.left player) (DOMRect.right bottomRect))
      then
        let gapTop := DOMRect.bottom topRect in
        let gapBottom := DOMRect.top bottomRect in
        Qltb (DOMRect.top player) gapTop || Qgtb (DOMRect.bottom player) gapBottom
      else false
  | _, _ => false
  end.

(** The collision rule in the words of the specification: a barrier
    overlaps the player horizontally; the player's vertical extent lies
    within the gap, from the top barrier's bottom edge to the bottom
    barrier's top edge. *)
Definition overlapsHorizontally (player r : DOMRect.t) : Prop :=
  DOMRect.left r < DOMRect.right player ∧ DOMRect.left player < DOMRect.right r.

Definition insideGap (player topRect bottomRect : DOMRect.t) : Prop :=
  DOMRect.bottom topRect <= DOMRect.top player
  ∧ DOMRect.bottom player <= DOMRect.top bottomRect.

(** [handleCollision]: starts the crash tween; its [onComplete] is
    [crashTweenComplete] below. *)
Definition handleCollision (w : World) : World := startCrashTween w.

(** [detectCollisions], where [player] is what
    [playerRef.getBoundingClientRect()] returns.  The locals [playerSize]
    and [playerCenterY] of the source are computed and never read.  The
    [return] after [handleCollision()] leaves the callback, not the
    [forEach]: every obstacle is tested. *)
Definition detectCollisions (player : DOMRect.t) (doc : Document) (w : World) : World :=
  if negb (playerRef (refs w)) || negb (gameActive (signals w)) then w
  else
    fold_left
      (fun w obs =>
         if hitsObstacle player doc obs then handleCollision (emit (Collision obs) w) else w)
      (obstacles (signals w)) w.

(** What the [forEach] of [detectCollisions] does to the world: one crash
    tween and one [Collision] effect for each obstacle hit, nothing else. *)
Definition addCollisions (hit : list Obstacle) (w : World) : World :=
  {| signals := signals w; refs := refs w; mounted := mounted w;
     listening := listening w;
     pending :=
       {| animationFrames := animationFrames (pending w);
          crashTweens := length hit + crashTweens (pending w);
          restartTimeouts := restartTimeouts (pending w);
          closeTweens := closeTweens (pending w) |};
     randomCalls := randomCalls w; nowCalls := nowCalls w;
     trace := trace w ++ map Collision hit |}.

(** The obstacles for which one call of [detectCollisions] reports a
    collision: the [Collision] effects it adds to the trace. *)
Definition collisionsOf (t : list Effect) : list Obstacle :=
  flat_map (fun e => match e with Collision o => [o] | _ => [] end) t.

Definition reported (player : DOMRect.t) (doc : Document) (w : World) : list Obstacle :=
  collisionsOf (drop (length (trace w)) (trace (detectCollisions player doc w))).

(** [updateGame] *)
Definition updateGame (player : DOMRect.t) (layout : Style -> DOMRect.t) (w : World) : World :=
  if negb (gameActive (signals w)) then w
  else
    let w := emit Tick w in
    let w := setPlayerPosition (fun prev => {| y := Qmin 90 (y prev + 0.5) |}) w in
    let (newObstacles, w) := moveObstacles (obstacles (signals w)) w in
    let w := setObstacles newObstacles w in
    let w := detectCollisions player (document layout w) w in
    if gameActive (signals w) then requestAnimationFrame w else w.

(** *** Continuations *)

(** [onComplete] of the crash tween. *)
Definition crashTweenComplete (w : World) : World :=
  let w := setGameActive false w in
  setRestartTimeout w.

(** The callback given to [setTimeout] by the crash tween's [onComplete];
    [gsap.set] only resets the player's appearance. *)
Definition restartTimeout (rect : DOMRect.t) (w : World) : World :=
  if gameRef (refs w) then initGame rect w else w.

(** [onCleanup] *)
Definition onCleanup (w : World) : World :=
  emit Cleanup
    {| signals := signals w; refs := refs w; mounted := mounted w;
       listening := false; pending := pending w;
       randomCalls := randomCalls w; nowCalls := nowCalls w; trace := trace w |}.

(** [props.onClose], as the page passes it: [() => setShowSecretGame(false)],
    which removes the component from the page and runs its cleanup. *)
Definition onClose (w : World) : World :=
  let w := emit OnClose w in
  if mounted w then
    onCleanup
      {| signals := signals w; refs := refs w; mounted := false;
         listening := listening w; pending := pending w;
         randomCalls := randomCalls w; nowCalls := nowCalls w; trace := trace w |}
  else w.

(** The render of the component followed by [onMount]. *)
Definition mount (rect : DOMRect.t) (w : World) : World :=
  let w :=
    {| signals := signals w;
       refs := {| gameRef := true; playerRef := true; gameAreaRef := true |};
       mounted := true; listening := listening w; pending := pending w;
       randomCalls := randomCalls w; nowCalls := nowCalls w; trace := trace w |} in
  let w :=
    if gameAreaRef (refs w)
    then setGameHeight (DOMRect.height rect) (setGameWidth (DOMRect.width rect) w)
    else w in
  let w :=
    {| signals := signals w; refs := refs w; mounted := mounted w;
       listening := true; pending := pending w;
       randomCalls := randomCalls w; nowCalls := nowCalls w; trace := trace w |} in
  initGame rect w.

(** *** The event loop *)

Definition takeFrame (p : Pending) : Pending :=
  {| animationFrames := pred (animationFrames p); crashTweens := crashTweens p;
     restartTimeouts := restartTimeouts p; closeTweens := closeTweens p |}.
Definition takeCrashTween (p : Pending) : Pending :=
  {| animationFrames := animationFrames p; crashTweens := pred (crashTweens p);
     restartTimeouts := restartTimeouts p; closeTweens := closeTweens p |}.
Definition takeRestartTimeout (p : Pending) : Pending :=
  {| animationFrames := animationFrames p; crashTweens := crashTweens p;
     restartTimeouts := pred (restartTimeouts p); closeTweens := closeTweens p |}.
Definition takeCloseTween (p : Pending) : Pending :=
  {| animationFrames := animationFrames p; crashTweens := crashTweens p;
     restartTimeouts := restartTimeouts p; closeTweens := pred (closeTweens p) |}.

(** What the host can do to the component.  Geometry read from the page
    comes with the event that reads it. *)
Inductive Event :=
| Mount (area : DOMRect.t)
| KeyDown (key : string)
| ClickClose
| AnimationFrame (player : DOMRect.t) (layout : Style -> DOMRect.t)
| CrashTweenComplete
| RestartTimeout (area : DOMRect.t)
| CloseTweenComplete.

(** Whether the host can deliver the event now. *)
Definition enabled (e : Event) (w : World) : bool :=
  match e with
  | Mount _ => negb (gameRef (refs w))
  | KeyDown _ => listening w
  | ClickClose => mounted w
  | AnimationFrame _ _ => bool_decide (0 < animationFrames (pending w))%nat
  | CrashTweenComplete => bool_decide (0 < crashTweens (pending w))%nat
  | RestartTimeout _ => bool_decide (0 < restartTimeouts (pending w))%nat
  | CloseTweenComplete => bool_decide (0 < closeTweens (pending w))%nat
  end.

(** One turn of the event loop; an event that cannot be delivered leaves
    the world as it is. *)
Definition step (w : World) (e : Event) : World :=
  if negb (enabled e w) then w
  else
    match e with
    | Mount area => mount area w
    | KeyDown key => handleControls key w
    | ClickClose => closeGame w
    | AnimationFrame player layout => updateGame player layout (withPending takeFrame w)
    | CrashTweenComplete => crashTweenComplete (withPending takeCrashTween w)
    | RestartTimeout area => restartTimeout area (withPending takeRestartTimeout w)
    | CloseTweenComplete => onClose (withPending takeCloseTween w)
    end.

Definition run (w : World) (events : list Event) : World := fold_left step events w.

(** Whether the host can deliver the events one after the other. *)
Fixpoint deliverable (w : World) (events : list Event) : bool :=
  match events with
  | [] => true
  | e :: events' => enabled e w && deliverable (step w e) events'
  end.

(** How one event changes the signals that the claims are about: not at
    all, by a move of the player, by the reset of [initGame], or by the
    tick of [updateGame]. *)
Inductive Change (w : World) (e : Event) (w' : World) : Prop :=
| Unchanged :
    playerPosition (signals w') = playerPosition (signals w) →
    obstacles (signals w') = obstacles (signals w) →
    score (signals w') = score (signals w) →
    Change w e w'
| Moved (y' : Q) :
    (y' = Qmax 0 (y (playerPosition (signals w)) - 5)
     ∨ y' = Qmin 90 (y (playerPosition (signals w)) + 5)) →
    playerPosition (signals w') = {| y := y' |} →
    obstacles (signals w') = obstacles (signals w) →
    score (signals w') = score (signals w) →
    Change w e w'
| Reset (area : DOMRect.t) (rc : nat) :
    e = Mount area ∨ e = RestartTimeout area →
    playerPosition (signals w') = {| y := 50 |} →
    obstacles (signals w') = seeds (DOMRect.width area) rc →
    score (signals w') = 0%Z →
    Change w e w'
| Ticked (w0 : World) :
    gameActive (signals w) = true →
    playerPosition (signals w') = {| y := Qmin 90 (y (playerPosition (signals w)) + 0.5) |} →
    obstacles (signals w') = fst (moveObstacles (obstacles (signals w)) w0) →
    score (signals w') = score (signals (snd (moveObstacles (obstacles (signals w)) w0))) →
    score (signals w0) = score (signals w) →
    Change w e w'.

End Game.

(** An obstacle within the gap invariant. *)
Definition wellGapped (o : Obstacle) : Prop :=
  20 <= height o ∧ height o <= 70 ∧ gapSize o = 30.

(** The number of obstacles of an array that are left of the recycle
    threshold. *)
Fixpoint countLeft (l : list Obstacle) : nat :=
  match l with
  | [] => 0
  | o :: l' => (if Qltb (x o) (-50) then 1 else 0) + countLeft l'
  end.







(** The component before its first render: the initial values of the
    signals, nothing scheduled. *)
Definition created : World :=
  {| signals := {| score := 0; playerPosition := {| y := 50 |}; obstacles := [];
                   gameActive := false; gameWidth := 0; gameHeight := 0 |};
     refs := {| gameRef := false; playerRef := false; gameAreaRef := false |};
     mounted := false; listening := false;
     pending := {| animationFrames := 0; crashTweens := 0;
                   restartTimeouts := 0; closeTweens := 0 |};
     randomCalls := 0; nowCalls := 0; trace := [] |}.

(** A box layout for the barriers inside a game area [area], [w] pixels
    wide each; used to run the game on examples. *)
Definition boxLayout (area : DOMRect.t) (w : Q) (s : Style) : DOMRect.t :=
  let h := heightPct s / 100 * DOMRect.height area in
  match anchor s with
  | AtTop =>
      {| DOMRect.left := DOMRect.left area + leftPx s; DOMRect.top := DOMRect.top area;
         DOMRect.right := DOMRect.left area + leftPx s + w;
         DOMRect.bottom := DOMRect.top area + h |}
  | AtBottom =>
      {| DOMRect.left := DOMRect.left area + leftPx s; DOMRect.top := DOMRect.bottom area - h;
         DOMRect.right := DOMRect.left area + leftPx s + w;
         DOMRect.bottom := DOMRect.bottom area |}
  end.

End Flappy.

(** Inputs on which the game is run in the examples below: a game area 100
    pixels wide and 256 high, barriers 48 pixels wide, a player box 40
    pixels wide at 40 pixels from the left, [Math.random] always 0.5 (so
    every gap spans 45% to 75% of the height: 115.2 to 192 pixels). *)
Module FlappyExamples.
Import Flappy.
Local Open Scope Q_scope.

Definition halfRandom (k : nat) : Q := 0.5.

(** A clock that advances by one millisecond at each reading. *)
Definition tickingClock (k : nat) : Z := 1700000000000 + Z.of_nat k.

(** A clock read several times within the same millisecond. *)
Definition sameMillisecond (k : nat) : Z := 1700000000000.

Definition area : DOMRect.t :=
  {| DOMRect.left := 0; DOMRect.top := 0; DOMRect.right := 100; DOMRect.bottom := 256 |}.

Definition layout : Style -> DOMRect.t := boxLayout area 48.

Definition playerInGap : DOMRect.t :=
  {| DOMRect.left := 40; DOMRect.top := 130; DOMRect.right := 80; DOMRect.bottom := 170 |}.

Definition playerOnTopBarrier : DOMRect.t :=
  {| DOMRect.left := 40; DOMRect.top := 100; DOMRect.right := 80; DOMRect.bottom := 140 |}.

Definition go : World -> list Event -> World := run halfRandom tickingClock.

(** Mount, then 39 frames with the player in the gap: the obstacles, seeded
    at 150, 300 and 450, stand at 72, 222 and 372. *)
Definition approach : list Event :=
  Mount area :: replicate 39 (AnimationFrame playerInGap layout).

Definition beforeCrash : World := go created approach.

(** The next frame, with the player on the top barrier of the first
    obstacle (now at 70, overlapping the player's 40 to 80). *)
Definition crashTick : Event := AnimationFrame playerOnTopBarrier layout.

Definition afterCrashTick : World := go beforeCrash [crashTick].

(** The crash tween has completed: the game is inactive. *)
Definition crashed : World := go afterCrashTick [CrashTweenComplete].

(** The first obstacle in [afterCrashTick] and in [crashed]. *)
Definition firstObstacle : Obstacle :=
  {| id := 1; x := 70; height := 45.0; gapSize := 30 |}.

(** The frame left pending by the crash tick finds the game inactive. *)
Definition staleFrame : Event := AnimationFrame playerOnTopBarrier layout.

(** The player closes the game while it is crashed, just before the
    restart timer fires; then a frame comes, the exit tween completes, and
    another frame comes. *)
Definition closingEvents : list Event :=
  [ staleFrame; ClickClose; RestartTimeout area; AnimationFrame playerInGap layout;
    CloseTweenComplete; AnimationFrame playerInGap layout ].

Definition afterClosing : World := go crashed closingEvents.

(** Two crash ticks in a row, their two tweens, their two restart timers. *)
Definition doubleCrash : list Event :=
  [ crashTick; crashTick; CrashTweenComplete; CrashTweenComplete; staleFrame;
    RestartTimeout area; RestartTimeout area ].

(** From the mount, 100 frames bring the first obstacle to -50; the next
    frame recycles it. *)
Definition untilThreshold : list Event :=
  Mount area :: replicate 100 (AnimationFrame playerInGap layout).


Definition obstacleAt (i : Z) (xPosition : Q) : Obstacle :=
  {| id := i; x := xPosition; height := 45.0; gapSize := 30 |}.

(** A state with two obstacles about to leave the field in the same
    frame. *)
Definition crowded : World :=
  setObstacles
    [ {| id := 1; x := -49; height := 45; gapSize := 30 |};
      {| id := 2; x := -49; height := 50; gapSize := 30 |};
      {| id := 3; x := 101; height := 55; gapSize := 30 |} ]
    (go created [Mount area]).

Definition crowdedFrame : World :=
  step halfRandom sameMillisecond crowded (AnimationFrame playerInGap layout).

(** From the mount, 176 frames read within one millisecond of the clock:
    the first obstacle is recycled in frame 101, the second in frame 176. *)
Definition fastFrames : list Event :=
  Mount area :: replicate 176 (AnimationFrame playerInGap layout).

Definition afterFastFrames : World := run halfRandom sameMillisecond created fastFrames.

End FlappyExamples.

(* ===================================================================== *)
(** ** The detector over its whole life, and the page that owns it        *)
(* ===================================================================== *)

(** What a client can do with a detector: call [start], call [stop], and
    let a key be pressed on the document. *)
Module SecretCodeSession.
Import SecretCode.

Inductive Operation := Start | Stop | Press (key : string).

Definition perform (d : SecretCodeDetector) (op : Operation)
  : SecretCodeDetector * list Invocation :=
  match op with
  | Start => (start d, [])
  | Stop => (stop d, [])
  | Press key => keydown d key
  end.

(** The detector after a sequence of operations, and the invocations of
    the callback made along the way. *)
Fixpoint session (d : SecretCodeDetector) (ops : list Operation)
  : SecretCodeDetector * list Invocation :=
  match ops with
  | [] => (d, [])
  | op :: ops' =>
      let (d1, inv) := perform d op in
      let (d2, invs) := session d1 ops' in
      (d2, inv ++ invs)
  end.

(** [T] occurs in [keys] as a run of consecutive keys. *)
Definition occursIn (T keys : list string) : Prop :=
  ∃ before after, keys = before ++ T ++ after.

End SecretCodeSession.

(** The part of the page component [App] that owns the detector: the
    signal [showSecretGame], the variable [secretCodeDetector], the callback
    [revealSecretGame], the detector set up in [onMount] and stopped in
    [onCleanup], and the [onClose] handed to the game.  The rest of [App]
    (refs, hover effects, entrance animations, [showMessage]) neither reads
    nor writes these.  The game that the page renders while the signal is
    true is put together with this part in [Page] below. *)
Module App.

Record Component := {
  showSecretGame : bool;
  secretCodeDetector : option SecretCode.SecretCodeDetector   (* [None] is [null] *)
}.

(** The component as created: [createSignal(false)], [null]. *)
Definition created : Component :=
  {| showSecretGame := false; secretCodeDetector := None |}.

Definition revealSecretGame (a : Component) : Component :=
  {| showSecretGame := true; secretCodeDetector := secretCodeDetector a |}.

(** The [onClose] that the page hands to the game:
    [() => setShowSecretGame(false)]. *)
Definition onClose (a : Component) : Component :=
  {| showSecretGame := false; secretCodeDetector := secretCodeDetector a |}.

(** [onMount], as far as the detector goes:
    [secretCodeDetector = setupSecretCodeDetection(revealSecretGame)]. *)
Definition onMount (a : Component) : Component :=
  {| showSecretGame := showSecretGame a;
     secretCodeDetector := Some SecretCode.setupSecretCodeDetection |}.

(** [onCleanup]: [if (secretCodeDetector) secretCodeDetector.stop()]. *)
Definition onCleanup (a : Component) : Component :=
  match secretCodeDetector a with
  | Some d => {| showSecretGame := showSecretGame a;
                 secretCodeDetector := Some (SecretCode.stop d) |}
  | None => a
  end.

(** What a key pressed on the document does through the listener that the
    page registered for its detector: the detector's handler, if there is
    a detector, and [revealSecretGame] for each invocation of its
    callback.  This is all that a key does to the signal and to the
    detector; the listener of a game that is on the page gets the key as
    well, and is added in [Page.keydown]. *)
Definition keydown (a : Component) (key : string) : Component :=
  match secretCodeDetector a with
  | Some d =>
      let (d', invocations) := SecretCode.keydown d key in
      fold_left (fun a _ => revealSecretGame a) invocations
        {| showSecretGame := showSecretGame a; secretCodeDetector := Some d' |}
  | None => a
  end.

Definition type (a : Component) (keys : list string) : Component :=
  fold_left keydown keys a.

End App.

(** The page with the secret game on it.  [App] renders
    [{showSecretGame() && <FlappyGame onClose={() => setShowSecretGame(false)} />}]:
    when a write has turned the signal true a new instance of the game is
    created and mounted, when a write has turned it false the instance on
    the page is removed and its [onCleanup] runs.  A key pressed on the
    document reaches the listener of the detector, registered when the page
    was mounted, and the listener of the game that is on the page.  The
    other events of the game on the page (a click on its close button, a
    frame, the end of a tween, a timer) are those of [Flappy.step]; the one
    that completes an exit tween calls [props.onClose].  A removed instance
    hears no key and its close button is off the page, so it never calls
    [closeGame] again: of what it still has pending, only its exit tweens
    reach the page, through the [onClose] they were started with. *)
Module Page.

Record State := {
  app : App.Component;
  game : option Flappy.World;   (* the instance of the game on the page *)
  instances : nat;              (* instances of the game created so far *)
  lateCloseTweens : nat;        (* exit tweens of removed instances, still running *)
  onCloseCount : nat            (* calls of the [onClose] handed to the games, so far *)
}.

Definition withApp (a : App.Component) (s : State) : State :=
  {| app := a; game := game s; instances := instances s;
     lateCloseTweens := lateCloseTweens s; onCloseCount := onCloseCount s |}.

Definition withGame (g : option Flappy.World) (s : State) : State :=
  {| app := app s; game := g; instances := instances s;
     lateCloseTweens := lateCloseTweens s; onCloseCount := onCloseCount s |}.

(** The page before its [onMount]. *)
Definition created : State :=
  {| app := App.created; game := None; instances := 0;
     lateCloseTweens := 0; onCloseCount := 0 |}.

Definition onMount (s : State) : State := withApp (App.onMount (app s)) s.

(** The events of the game on the page that come from the host alone; its
    mount is made by the render of the page, and its keys are those of the
    document. *)
Definition fromHost (e : Flappy.Event) : bool :=
  match e with
  | Flappy.Mount _ | Flappy.KeyDown _ => false
  | _ => true
  end.

Definition completesExitTween (e : Flappy.Event) : bool :=
  match e with
  | Flappy.CloseTweenComplete => true
  | _ => false
  end.

(** What the host can do to the page: press a key ([area] is the box of
    the game area, read by the mount of a game that the key reveals),
    deliver an event to the game on the page, complete an exit tween of a
    removed instance. *)
Inductive Event :=
| KeyDown (key : string) (area : DOMRect.t)
| Game (e : Flappy.Event)
| LateCloseTweenComplete.

(** The keys among the events, in order. *)
Definition keys (events : list Event) : list string :=
  flat_map (fun e => match e with KeyDown key _ => [key] | _ => [] end) events.

Section Host.

(** The host: the [k]-th value that the [i]-th instance of the game gets
    from [Math.random] and from [Date.now]. *)
Variable Math_random : nat -> nat -> Q.
Variable Date_now : nat -> nat -> Z.

(** The render when the signal is true and no game is on the page: a new
    instance is created and mounted. *)
Definition mountGame (area : DOMRect.t) (s : State) : State :=
  match game s with
  | None =>
      if App.showSecretGame (app s) then
        {| app := app s;
           game := Some (Flappy.mount (Math_random (instances s)) (Date_now (instances s))
                           area Flappy.created);
           instances := S (instances s);
           lateCloseTweens := lateCloseTweens s; onCloseCount := onCloseCount s |}
      else s
  | Some _ => s
  end.

(** The render when the signal is false and a game is on the page: the
    instance is removed, with its exit tweens still running. *)
Definition removeGame (s : State) : State :=
  match game s with
  | Some w =>
      if App.showSecretGame (app s) then s
      else
        {| app := app s; game := None; instances := instances s;
           lateCloseTweens :=
             lateCloseTweens s + Flappy.closeTweens (Flappy.pending w);
           onCloseCount := onCloseCount s |}
  | None => s
  end.

(** The [onClose] handed to every instance, [() => setShowSecretGame(false)],
    and the render that follows. *)
Definition onClose (s : State) : State :=
  removeGame
    {| app := App.onClose (app s); game := game s; instances := instances s;
       lateCloseTweens := lateCloseTweens s; onCloseCount := S (onCloseCount s) |}.

(** A key pressed on the document.  The listener of the detector comes
    first, and the render if it has revealed the game; then the listener
    of the game that was on the page when the key was pressed (a listener
    added while the key is dispatched does not get that key). *)
Definition keydown (key : string) (area : DOMRect.t) (s : State) : State :=
  let s1 := mountGame area (withApp (App.keydown (app s) key) s) in
  match game s with
  | Some w =>
      withGame
        (Some (Flappy.step (Math_random (pred (instances s))) (Date_now (pred (instances s)))
                 w (Flappy.KeyDown key)))
        s1
  | None => s1
  end.

(** One turn of the event loop of the page; an event that cannot be
    delivered leaves the page as it is. *)
Definition step (s : State) (e : Event) : State :=
  match e with
  | KeyDown key area => keydown key area s
  | Game e =>
      match game s with
      | Some w =>
          if fromHost e && Flappy.enabled e w then
            let s1 :=
              withGame
                (Some (Flappy.step (Math_random (pred (instances s)))
                         (Date_now (pred (instances s))) w e))
                s in
            if completesExitTween e then onClose s1 else s1
          else s
      | None => s
      end
  | LateCloseTweenComplete =>
      if bool_decide (0 < lateCloseTweens s)%nat then
        onClose
          {| app := app s; game := game s; instances := instances s;
             lateCloseTweens := pred (lateCloseTweens s);
             onCloseCount := onCloseCount s |}
      else s
  end.

Definition run (s : State) (events : list Event) : State := fold_left step events s.

End Host.

(** The keys of a list, each pressed with the game area at [area]. *)
Definition press (area : DOMRect.t) (keys : list string) : list Event :=
  map (fun key => KeyDown key area) keys.

End Page.

(** Book-keeping on the game's world: what has been asked of the host and
    what has been answered, as read off the trace. *)
Module FlappyLedger.
Import Flappy.
Local Open Scope Q_scope.

(** All three element references assigned. *)
Definition allRefs : Refs := {| gameRef := true; playerRef := true; gameAreaRef := true |}.

Definition isInitGame (e : Effect) : bool :=
  match e with InitGame => true | _ => false end.
Definition isTick (e : Effect) : bool :=
  match e with Tick => true | _ => false end.
Definition isCollision (e : Effect) : bool :=
  match e with Collision _ => true | _ => false end.
Definition isCloseGame (e : Effect) : bool :=
  match e with CloseGame => true | _ => false end.

(** How many effects of a kind the trace holds. *)
Definition occurrences (kind : Effect -> bool) (t : list Effect) : nat :=
  length (List.filter kind t).

(** The world that [initGame] leaves when it passes its guard. *)
Definition freshRun (Math_random : nat -> Q) (rect : DOMRect.t) (w : World) : World :=
  {| signals :=
       {| score := 0; playerPosition := {| y := 50 |};
          obstacles := seeds Math_random (DOMRect.width rect) (randomCalls w);
          gameActive := true;
          gameWidth := DOMRect.width rect; gameHeight := DOMRect.height rect |};
     refs := refs w; mounted := mounted w; listening := listening w;
     pending :=
       {| animationFrames := S (animationFrames (pending w));
          crashTweens := crashTweens (pending w);
          restartTimeouts := restartTimeouts (pending w);
          closeTweens := closeTweens (pending w) |};
     randomCalls := S (S (S (randomCalls w))); nowCalls := nowCalls w;
     trace := trace w ++ [InitGame] |}.

(** What holds of the world once the component has been mounted: the refs
    are assigned, there are three obstacles, the score is not negative,
    every call of [closeGame] has its exit tween pending or answered by
    one call of [props.onClose], and every call of [handleCollision] has
    its crash tween or its restart timer pending or answered by one run of
    [initGame] (the mount accounts for one more). *)
Definition Settled (w : World) : Prop :=
  refs w = allRefs
  ∧ length (obstacles (signals w)) = 3%nat
  ∧ (0 <= score (signals w))%Z
  ∧ occurrences isCloseGame (trace w)
    = (closeTweens (pending w) + onCloseCalls w)%nat
  ∧ S (occurrences isCollision (trace w))
    = (crashTweens (pending w) + restartTimeouts (pending w)
       + occurrences isInitGame (trace w))%nat.

Definition isFrame (e : Event) : Prop :=
  match e with AnimationFrame _ _ => True | _ => False end.

Definition isFrameOrKey (e : Event) : Prop :=
  match e with AnimationFrame _ _ | KeyDown _ => True | _ => False end.

(** How many of the events are animation frames. *)
Definition frameCount (events : list Event) : nat :=
  length (List.filter (fun e => match e with AnimationFrame _ _ => true | _ => false end)
            events).

Definition isCleanup (e : Effect) : bool :=
  match e with Cleanup => true | _ => false end.

(** The component has been rendered and the page has removed it since. *)
Definition removed (w : World) : bool := gameRef (refs w) && negb (mounted w).

(** The two barriers of one obstacle, laid out on their own. *)
Definition ownBarriers (layout : Style -> DOMRect.t) (o : Obstacle) : Document :=
  map (fun p => (fst p, layout (snd p))) (renderObstacle o).

(** A clock whose every reading is later than the one before, and later
    than 3 milliseconds after the epoch. *)
Definition advancingClock (Date_now : nat -> Z) : Prop :=
  (∀ k, 3 < Date_now k)%Z ∧ (∀ j k, (j < k)%nat → (Date_now j < Date_now k)%Z).

(** Ids that are pairwise distinct and are either seeds (1, 2, 3) or one of
    the first [n] readings of the clock. *)
Definition distinctKnownIds (Date_now : nat -> Z) (n : nat) (l : list Obstacle) : Prop :=
  NoDup (map id l)
  ∧ ∀ o, o ∈ l → (1 <= id o <= 3)%Z ∨ ∃ k, (k < n)%nat ∧ id o = Date_now k.

End FlappyLedger.

(** Inputs for the examples on whole runs. *)
Module FlappyMoreExamples.
Import Flappy FlappyExamples.
Local Open Scope Q_scope.

(** The run up to the completion of the crash tween: the game is inactive
    and the restart timer is pending. *)
Definition untilCrashed : list Event := approach ++ [crashTick; CrashTweenComplete].

(** The first obstacle right after the mount. *)
Definition seedObstacle : Obstacle := obstacleAt 1 150.

Definition threeFrames : list Event := replicate 3 (AnimationFrame playerInGap layout).

(** Frames and key presses that reach the crashed game. *)
Definition idleEvents : list Event :=
  [staleFrame; KeyDown "ArrowUp"; staleFrame; KeyDown "Escape"].

End FlappyMoreExamples.

(** A game played on the page: the player's box in each frame is the one
    the render gives it, and the rocket is kept in the gap with the up
    key. *)
Module FlappyPlay.
Import Flappy FlappyExamples.
Local Open Scope Q_scope.

(** The player's box as the render places it in the game area: 40 pixels
    wide and high ([w-10 h-10]), 40 pixels from the left ([left-10]), its
    top at [playerY] percent of the height of the area less 20 pixels
    ([top: calc(y% - 20px)]). *)
Definition playerBox (area : DOMRect.t) (playerY : Q) : DOMRect.t :=
  {| DOMRect.left := DOMRect.left area + 40;
     DOMRect.top := DOMRect.top area + playerY / 100 * DOMRect.height area - 20;
     DOMRect.right := DOMRect.left area + 80;
     DOMRect.bottom := DOMRect.top area + playerY / 100 * DOMRect.height area + 20 |}.

(** [frames] frames of a game, the next one being frame number [k], with
    the player at [playerY]: before each of the frames up to number
    [upUntil] the player presses the up key if the rocket has fallen to 60
    or lower; after that the rocket is left to fall. *)
Fixpoint play (frames k upUntil : nat) (playerY : Q) : list Event :=
  match frames with
  | O => []
  | S n =>
      let up := (k <=? upUntil)%nat && Qle_bool 60 playerY in
      let y1 := if up then Qmax 0 (playerY - 5) else playerY in
      let y2 := Qred (Qmin 90 (y1 + 0.5)) in
      (if up then [KeyDown "ArrowUp"] else [])
        ++ AnimationFrame (playerBox area y2) layout :: play n (S k) upUntil y2
  end.

Definition sameBox (a b : DOMRect.t) : bool :=
  Qeq_bool (DOMRect.left a) (DOMRect.left b) && Qeq_bool (DOMRect.top a) (DOMRect.top b)
  && Qeq_bool (DOMRect.right a) (DOMRect.right b)
  && Qeq_bool (DOMRect.bottom a) (DOMRect.bottom b).

(** Whether every frame of a run finds the player where the render has
    put it: at the position that the gravity step of that frame gives. *)
Fixpoint rendered (Math_random : nat -> Q) (Date_now : nat -> Z) (w : World)
    (events : list Event) : bool :=
  match events with
  | [] => true
  | e :: events' =>
      match e with
      | AnimationFrame player _ =>
          sameBox player
            (playerBox area (Qmin 90 (y (playerPosition (signals w)) + 0.5)))
      | _ => true
      end && rendered Math_random Date_now (step Math_random Date_now w e) events'
  end.

(** A clock whose first two readings fall in the same millisecond and
    which advances from then on. *)
Definition repeatedReading (k : nat) : Z :=
  if (k <? 2)%nat then 1700000000000%Z else tickingClock k.

(** From the mount, 335 frames.  The player keeps the rocket between 55
    and 60, inside every gap, up to frame 301 and lets it fall from then
    on.  The three obstacles are recycled in frames 101, 176 and 251, which
    make the first, the second and the third reading of the clock. *)
Definition flight : list Event := Mount area :: play 335 1 301 50.

Definition inFlight : World := run halfRandom repeatedReading created flight.

(** Frame 336: the rocket has fallen to 73. *)
Definition crashBox : DOMRect.t := playerBox area 73.

Definition crashFrame : Event := AnimationFrame crashBox layout.

(** The world that [detectCollisions] receives in frame 336: [updateGame]
    has traced the tick, moved the player and made the obstacle pass. *)
Definition atDetect : World :=
  let w0 := setPlayerPosition (fun prev => {| y := Qmin 90 (y prev + 0.5) |})
              (emit Tick (withPending takeFrame inFlight)) in
  let mo := moveObstacles halfRandom repeatedReading (obstacles (signals w0)) w0 in
  setObstacles (fst mo) (snd mo).

End FlappyPlay.

(** Inputs for the examples on the page. *)
Module PageExamples.
Import FlappyExamples.

(** The host of the examples: every instance of the game gets 0.5 from
    [Math.random] and the clock that advances by one millisecond at each
    reading. *)
Definition random (i k : nat) : Q := halfRandom k.
Definition clock (i k : nat) : Z := tickingClock k.

(** The Konami code typed on the page, then the up key, which the game now
    on the page takes, and a frame of the game. *)
Definition codeThenPlay : list Page.Event :=
  Page.press area SecretCode.KONAMI_CODE
  ++ [Page.KeyDown "ArrowUp" area; Page.Game (Flappy.AnimationFrame playerInGap layout)].

(** The Konami code typed on the page, then Escape, and the end of the exit
    tween that Escape has started. *)
Definition codeThenEscape : list Page.Event :=
  Page.press area SecretCode.KONAMI_CODE
  ++ [Page.KeyDown "Escape" area; Page.Game Flappy.CloseTweenComplete].

Definition codeAgain : list Page.Event := Page.press area SecretCode.KONAMI_CODE.

End PageExamples.

(* ===================================================================== *)
(** ** Properties of the secret-code detector                             *)
(* ===================================================================== *)

Section SecretCodeFacts.
Import SecretCode.

Lemma matchLoop_true sq code n i :
  matchLoop sq code i n = true ↔ ∀ j, (i ≤ j < i + n)%nat → sq !! j = code !! j.
Proof.
  revert i. induction n as [|n IH]; intros i; simpl.
  - split; [intros _ j Hj; lia | done].
  - unfold strictNe. destruct (bool_decide_reflect (sq !! i = code !! i)) as [E|E]; simpl.
    + rewrite IH. split.
      * intros H j Hj. destruct (decide (j = i)) as [->|]; [done|]. apply H. lia.
      * intros H j Hj. apply H. lia.
    + split; [done|]. intros H. exfalso. apply E, H. lia.
Qed.

Lemma sequenceMatches_true d :
  sequenceMatches d = true ↔ sequence d = secretCode d.
Proof.
  unfold sequenceMatches.
  destruct (Nat.eqb_spec (length (sequence d)) (length (secretCode d))) as [E|E]; simpl.
  - rewrite matchLoop_true. split.
    + intros H. apply list_eq. intros j.
      destruct (decide (j < length (secretCode d))%nat) as [Hj|Hj].
      * apply H. lia.
      * rewrite !lookup_ge_None_2; [done | lia | lia].
    + intros -> j _. done.
  - split; [done|]. intros H. rewrite H in E. done.
Qed.

(** The window after the push and the trim is the last [n] keys observed. *)
Lemma trim_lastKeys n observed key :
  (if (n <? length (lastKeys n observed ++ [key]))%nat
   then shift (lastKeys n observed ++ [key])
   else lastKeys n observed ++ [key]) = lastKeys n (observed ++ [key]).
Proof.
  unfold lastKeys, shift. rewrite !length_app, length_drop. simpl.
  destruct (Nat.ltb_spec n (length observed - (length observed - n) + 1)) as [H|H].
  - destruct (decide (n = 0%nat)) as [->|Hn].
    + rewrite Nat.sub_0_r. rewrite !drop_ge; [done | | done].
      rewrite length_app. simpl. lia.
    + replace (length observed + 1 - n)%nat with (S (length observed - n)) by lia.
      rewrite drop_app_le by lia.
      destruct (drop (length observed - n) observed) as [|a l] eqn:E.
      * apply (f_equal length) in E. rewrite length_drop in E. simpl in E. lia.
      * simpl. replace (S (length observed - n)) with (length observed - n + 1)%nat by lia.
        by rewrite <- drop_drop, E.
  - replace (length observed + 1 - n)%nat with 0%nat by lia.
    replace (length observed - n)%nat with 0%nat by lia. by rewrite !drop_0.
Qed.

Lemma lastKeysAre_true T observed :
  lastKeysAre T observed = true ↔ lastKeys (length T) observed = T.
Proof.
  unfold lastKeysAre. rewrite bool_decide_eq_true. split; [tauto|].
  intros H. split; [|done].
  apply (f_equal length) in H. unfold lastKeys in H. rewrite length_drop in H. lia.
Qed.

(** One key: the code fires exactly when the specification's matcher does,
    and both keep the same window. *)
Lemma handleKeyDown_spec T observed key en :
  let d := {| sequence := lastKeys (length T) observed; secretCode := T; enabled := en |} in
  handleKeyDown d key =
    if lastKeysAre T (observed ++ [key])
    then ({| sequence := []; secretCode := T; enabled := en |}, [ {| windowAtCall := [] |} ])
    else ({| sequence := lastKeys (length T) (observed ++ [key]);
             secretCode := T; enabled := en |}, []).
Proof.
  intros d. unfold handleKeyDown. subst d. cbn [sequence secretCode enabled].
  rewrite trim_lastKeys.
  destruct (sequenceMatches _) eqn:M.
  - apply sequenceMatches_true in M. cbn in M.
    apply lastKeysAre_true in M. by rewrite M.
  - destruct (lastKeysAre T (observed ++ [key])) eqn:L; [|done].
    apply lastKeysAre_true in L.
    assert (sequenceMatches
              {| sequence := lastKeys (length T) (observed ++ [key]);
                 secretCode := T; enabled := en |} = true) as M'
      by (by apply sequenceMatches_true).
    congruence.
Qed.

Lemma feed_spec T observed keys :
  snd (feed {| sequence := lastKeys (length T) observed; secretCode := T;
               enabled := true |} keys)
  = map expectedInvocations (specFiresFrom T observed keys).
Proof.
  revert observed. induction keys as [|k ks IH]; intros observed; [done|].
  cbn [feed specFiresFrom]. unfold keydown. cbn [enabled].
  rewrite handleKeyDown_spec.
  destruct (lastKeysAre T (observed ++ [k])).
  - specialize (IH []). unfold lastKeys in IH at 1. simpl in IH.
    destruct (feed _ ks) as [d2 invs]. simpl in *. by rewrite IH.
  - specialize (IH (observed ++ [k])).
    destruct (feed _ ks) as [d2 invs]. simpl in *. by rewrite IH.
Qed.

(** A firing needs a full window: at least [length T] keys since the last
    reset. *)
Lemma specFires_needs_keys T observed keys j :
  specFiresFrom T observed keys !! j = Some true →
  (length T ≤ length observed + j + 1)%nat.
Proof.
  revert observed j. induction keys as [|k ks IH]; intros observed j; [done|].
  cbn [specFiresFrom].
  destruct (lastKeysAre T (observed ++ [k])) eqn:L.
  - destruct j as [|j]; simpl.
    + intros _. apply lastKeysAre_true in L. apply (f_equal length) in L.
      unfold lastKeys in L. rewrite length_drop, length_app in L. simpl in L. lia.
    + intros H. apply IH in H. simpl in H. lia.
  - destruct j as [|j]; simpl; [done|].
    intros H. apply IH in H. rewrite length_app in H. simpl in H. lia.
Qed.

(** After a firing the matcher starts afresh on the rest of the stream. *)
Lemma specFires_restart T observed keys i :
  specFiresFrom T observed keys !! i = Some true →
  drop (S i) (specFiresFrom T observed keys) = specFiresFrom T [] (drop (S i) keys).
Proof.
  revert observed i. induction keys as [|k ks IH]; intros observed i; [done|].
  cbn [specFiresFrom].
  destruct (lastKeysAre T (observed ++ [k])) eqn:L; destruct i as [|i]; simpl;
    try done; apply IH.
Qed.

Lemma specFires_apart T keys i j :
  (i < j)%nat →
  specFires T keys !! i = Some true →
  specFires T keys !! j = Some true →
  (length T ≤ j - i)%nat.
Proof.
  unfold specFires. intros Hij Hi Hj.
  pose proof (specFires_restart _ _ _ _ Hi) as R.
  assert (drop (S i) (specFiresFrom T [] keys) !! (j - S i)%nat = Some true) as H.
  { rewrite lookup_drop. replace (S i + (j - S i))%nat with j by lia. done. }
  rewrite R in H. apply specFires_needs_keys in H. simpl in H. lia.
Qed.

(** Keys that do not yet fill the window never fire. *)
Lemma specFires_short T observed keys rest :
  (length observed + length keys < length T)%nat →
  specFiresFrom T observed (keys ++ rest)
  = replicate (length keys) false ++ specFiresFrom T (observed ++ keys) rest.
Proof.
  revert observed. induction keys as [|k ks IH]; intros observed Hlen; simpl.
  - by rewrite app_nil_r.
  - simpl in Hlen.
    destruct (lastKeysAre T (observed ++ [k])) eqn:L.
    + apply lastKeysAre_true in L. apply (f_equal length) in L.
      unfold lastKeys in L. rewrite length_drop, length_app in L. simpl in L. lia.
    + rewrite IH by (rewrite length_app; simpl; lia).
      by rewrite <- app_assoc.
Qed.

(** One occurrence of a non-empty pattern, fed to a fresh window, fires
    once, at its last key. *)
Lemma specFires_occurrence T rest :
  T ≠ [] →
  specFiresFrom T [] (T ++ rest)
  = replicate (length T - 1) false ++ true :: specFiresFrom T [] rest.
Proof.
  intros HT. destruct (exists_last HT) as (T' & a & ->).
  rewrite length_app. simpl. replace (length T' + 1 - 1)%nat with (length T') by lia.
  rewrite <- app_assoc.
  rewrite specFires_short by (rewrite length_app; simpl; lia).
  f_equal. simpl.
  assert (lastKeysAre (T' ++ [a]) (T' ++ [a]) = true) as ->; [|done].
  apply lastKeysAre_true. unfold lastKeys. by rewrite Nat.sub_diag, drop_0.
Qed.

Lemma specFires_repeat T k :
  T ≠ [] →
  specFires T (repeatPattern k T)
  = mjoin (replicate k (replicate (length T - 1) false ++ [true])).
Proof.
  intros HT. unfold specFires. induction k as [|k IH]; [done|].
  simpl. rewrite specFires_occurrence by done. rewrite IH.
  by rewrite <- app_assoc.
Qed.

Lemma feed_started T keys :
  snd (feed (start (new T)) keys) = map expectedInvocations (specFires T keys).
Proof.
  unfold specFires, start, new. cbn [enabled sequence secretCode].
  exact (feed_spec T [] keys).
Qed.

Lemma fires_specFires T keys : fires T keys = specFires T keys.
Proof.
  unfold fires. rewrite feed_started, map_map.
  rewrite <- (map_id (specFires T keys)) at 2.
  apply map_ext. by intros [].
Qed.

(** C1.  For every pattern [T] and every stream of key presses fed to a
    started detector: the callback runs at a key exactly when the keys
    observed since the start or since the previous invocation number at
    least [length T] and the last [length T] of them are [T], in order
    ([specFires]); at such a key it runs once and finds the window already
    cleared, at any other key it does not run; two invocations are at
    least [length T] keys apart, so occurrences never overlap; and [k]
    consecutive occurrences of a non-empty [T] fire once each, at the last
    key of each occurrence. *)
Theorem detector_fires_on_last_keys (T keys : list string) :
  fires T keys = specFires T keys
  ∧ snd (feed (start (new T)) keys) = map expectedInvocations (specFires T keys)
  ∧ (∀ i j, (i < j)%nat → fires T keys !! i = Some true →
       fires T keys !! j = Some true → (length T ≤ j - i)%nat)
  ∧ (∀ k, T ≠ [] →
       fires T (repeatPattern k T)
       = mjoin (replicate k (replicate (length T - 1) false ++ [true]))).
Proof.
  split; [apply fires_specFires|]. split; [apply feed_started|]. split.
  - intros i j. rewrite fires_specFires. apply specFires_apart.
  - intros k HT. rewrite fires_specFires. by apply specFires_repeat.
Qed.

End SecretCodeFacts.

(* ===================================================================== *)
(** ** Properties of the Flappy mini-game                                 *)
(* ===================================================================== *)

Section FlappyFacts.
Import Flappy.
Local Open Scope Q_scope.

Lemma Qltb_lt a b : Qltb a b = true ↔ a < b.
Proof. unfold Qltb. destruct (Qlt_le_dec a b); split; try done; lra. Qed.

Lemma Qltb_ge a b : Qltb a b = false ↔ b <= a.
Proof. unfold Qltb. destruct (Qlt_le_dec a b); split; try done; lra. Qed.

(** *** Collision detection *)

Lemma addCollisions_nil w : addCollisions [] w = w.
Proof.
  destruct w as [s r m l [a c t cl] rc nc tr]. unfold addCollisions. simpl.
  by rewrite app_nil_r.
Qed.

Lemma addCollisions_cons o hit w :
  addCollisions hit (handleCollision (emit (Collision o) w)) = addCollisions (o :: hit) w.
Proof.
  unfold addCollisions, handleCollision, startCrashTween, withPending, emit. simpl.
  rewrite <- app_assoc. simpl. do 2 f_equal. f_equal. lia.
Qed.

Lemma forEach_addCollisions player doc l w :
  fold_left
    (fun w obs =>
       if hitsObstacle player doc obs then handleCollision (emit (Collision obs) w) else w)
    l w
  = addCollisions (filter (fun o => hitsObstacle player doc o = true) l) w.
Proof.
  revert w. induction l as [|o l IH]; intros w; simpl.
  - by rewrite addCollisions_nil.
  - rewrite IH. rewrite filter_cons.
    destruct (hitsObstacle player doc o) eqn:H.
    + rewrite decide_True by done. apply addCollisions_cons.
    + rewrite decide_False by done. done.
Qed.

Lemma detectCollisions_eq player doc w :
  detectCollisions player doc w =
    if negb (playerRef (refs w)) || negb (gameActive (signals w)) then w
    else addCollisions
           (filter (fun o => hitsObstacle player doc o = true) (obstacles (signals w))) w.
Proof.
  unfold detectCollisions. destruct (_ || _); [done|]. apply forEach_addCollisions.
Qed.

Lemma collisionsOf_Collision hit : collisionsOf (map Collision hit) = hit.
Proof. induction hit as [|o hit IH]; [done|]. simpl. by f_equal. Qed.

Lemma reported_eq player doc w :
  reported player doc w =
    if negb (playerRef (refs w)) || negb (gameActive (signals w)) then []
    else filter (fun o => hitsObstacle player doc o = true) (obstacles (signals w)).
Proof.
  unfold reported. rewrite detectCollisions_eq.
  destruct (_ || _).
  - by rewrite drop_all.
  - simpl. rewrite drop_app_length. apply collisionsOf_Collision.
Qed.

(** The test made on one obstacle, in the specification's words. *)
Lemma hitsObstacle_true player doc obs :
  hitsObstacle player doc obs = true ↔
  ∃ topRect bottomRect,
    getElementById doc (obs_top (id obs)) = Some topRect
    ∧ getElementById doc (obs_bottom (id obs)) = Some bottomRect
    ∧ (overlapsHorizontally player topRect ∨ overlapsHorizontally player bottomRect)
    ∧ ¬ insideGap player topRect bottomRect.
Proof.
  unfold hitsObstacle, overlapsHorizontally, insideGap, Qgtb.
  destruct (getElementById doc (obs_top (id obs))) as [topRect|];
    [|split; [done | by intros (? & ? & ? & _)]].
  destruct (getElementById doc (obs_bottom (id obs))) as [bottomRect|];
    [|split; [done | by intros (? & ? & _ & ? & _)]].
  split.
  - intros H. exists topRect, bottomRect. split; [done|]. split; [done|].
    destruct (_ || _) eqn:O in H; [|done].
    apply orb_true_iff in O. apply orb_true_iff in H.
    rewrite !andb_true_iff, !Qltb_lt in O. rewrite !Qltb_lt in H.
    split; [tauto|]. intros [? ?]. destruct H; lra.
  - intros (t & b & [= <-] & [= <-] & O & G).
    assert ((Qltb (DOMRect.left topRect) (DOMRect.right player)
             && Qltb (DOMRect.left player) (DOMRect.right topRect))
            || (Qltb (DOMRect.left bottomRect) (DOMRect.right player)
                && Qltb (DOMRect.left player) (DOMRect.right bottomRect)) = true) as ->.
    { apply orb_true_iff. rewrite !andb_true_iff, !Qltb_lt. tauto. }
    apply orb_true_iff. rewrite !Qltb_lt.
    destruct (Qlt_le_dec (DOMRect.top player) (DOMRect.bottom topRect)); [tauto|].
    destruct (Qlt_le_dec (DOMRect.top bottomRect) (DOMRect.bottom player)); [tauto|].
    exfalso. apply G. split; lra.
Qed.

(** Looking a rendered barrier up by id finds the barrier of the first
    obstacle carrying that id. *)
Lemma getElementById_render_top layout obs i o :
  obs !! i = Some o →
  (∀ j o', (j < i)%nat → obs !! j = Some o' → id o' ≠ id o) →
  getElementById (map (fun p => (fst p, layout (snd p))) (render obs)) (obs_top (id o))
  = Some (layout (topStyle o)).
Proof.
  revert i. induction obs as [|a obs IH]; intros i Hi Hfirst; [done|].
  cbn [render flat_map renderObstacle app map getElementById fst snd].
  destruct i as [|i]; simpl in Hi.
  - injection Hi as ->. by rewrite bool_decide_eq_true_2.
  - rewrite bool_decide_eq_false_2.
    2:{ intros [= E]. by apply (Hfirst 0%nat a); [lia | | ]. }
    rewrite bool_decide_eq_false_2 by done.
    apply (IH i); [done|]. intros j o' Hj Ho'. apply (Hfirst (S j)); [lia | done].
Qed.

Lemma getElementById_render_bottom layout obs i o :
  obs !! i = Some o →
  (∀ j o', (j < i)%nat → obs !! j = Some o' → id o' ≠ id o) →
  getElementById (map (fun p => (fst p, layout (snd p))) (render obs)) (obs_bottom (id o))
  = Some (layout (bottomStyle o)).
Proof.
  revert i. induction obs as [|a obs IH]; intros i Hi Hfirst; [done|].
  cbn [render flat_map renderObstacle app map getElementById fst snd].
  destruct i as [|i]; simpl in Hi.
  - injection Hi as ->. rewrite bool_decide_eq_false_2 by done.
    by rewrite bool_decide_eq_true_2.
  - rewrite bool_decide_eq_false_2 by done.
    rewrite bool_decide_eq_false_2.
    2:{ intros [= E]. by apply (Hfirst 0%nat a); [lia | | ]. }
    apply (IH i); [done|]. intros j o' Hj Ho'. apply (Hfirst (S j)); [lia | done].
Qed.

Lemma NoDup_ids_first (obs : list Obstacle) i o :
  NoDup (map id obs) → obs !! i = Some o →
  ∀ j o', (j < i)%nat → obs !! j = Some o' → id o' ≠ id o.
Proof.
  intros ND Hi j o' Hj Ho' E.
  assert (map id obs !! j = Some (id o)) as Hj' by (rewrite list_lookup_fmap, Ho'; simpl; by rewrite E).
  assert (map id obs !! i = Some (id o)) as Hi' by (by rewrite list_lookup_fmap, Hi).
  pose proof (NoDup_lookup _ _ _ _ ND Hj' Hi'). lia.
Qed.

(** C10.  [detectCollisions] leaves every signal as it was: the player's
    position, the obstacles, the score and the active flag (and the game
    dimensions), in every state and for every geometry, also when it finds
    collisions.  All it does is start one crash tween per obstacle hit; it
    is the tween's completion, a later callback, that clears the active
    flag and arms the restart timer. *)
Theorem detectCollisions_keeps_state (player : DOMRect.t) (doc : Document) (w : World) :
  let w' := detectCollisions player doc w in
  signals w' = signals w
  ∧ y (playerPosition (signals w')) = y (playerPosition (signals w))
  ∧ obstacles (signals w') = obstacles (signals w)
  ∧ score (signals w') = score (signals w)
  ∧ gameActive (signals w') = gameActive (signals w)
  ∧ crashTweens (pending w')
    = (length (reported player doc w) + crashTweens (pending w))%nat
  ∧ animationFrames (pending w') = animationFrames (pending w)
  ∧ restartTimeouts (pending w') = restartTimeouts (pending w)
  ∧ gameActive (signals (crashTweenComplete w')) = false
  ∧ restartTimeouts (pending (crashTweenComplete w')) = S (restartTimeouts (pending w)).
Proof.
  intros w'. subst w'. rewrite reported_eq, detectCollisions_eq.
  destruct (_ || _); simpl; repeat split; reflexivity.
Qed.

(** X21.  The collision rule where ids are distinct.  Take a state whose
    live obstacles have pairwise distinct ids, and one of these obstacles,
    with the boxes of its two rendered barriers.  If the game is active and
    the component is on the page, as they are when [updateGame] calls
    [detectCollisions] on a game on the page, [detectCollisions] reports a
    collision for the obstacle exactly when one of its barriers overlaps
    the player horizontally and the player's vertical extent is not
    contained in the gap; and whatever the state, an obstacle with no
    horizontal overlap is not reported, and a player inside the gap is not
    reported.  On a game that is not active [detectCollisions] returns at
    its guard and reports nothing. *)
Theorem collision_rule (w : World) (player : DOMRect.t) (layout : Style -> DOMRect.t)
    (o : Obstacle) :
  NoDup (map id (obstacles (signals w))) →
  o ∈ obstacles (signals w) →
  let topRect := layout (topStyle o) in
  let bottomRect := layout (bottomStyle o) in
  let hit := o ∈ reported player (document layout w) w in
  (gameActive (signals w) = true → playerRef (refs w) = true → mounted w = true →
   (hit ↔ (overlapsHorizontally player topRect ∨ overlapsHorizontally player bottomRect)
          ∧ ¬ insideGap player topRect bottomRect))
  ∧ (¬ overlapsHorizontally player topRect → ¬ overlapsHorizontally player bottomRect →
     ¬ hit)
  ∧ (insideGap player topRect bottomRect → ¬ hit)
  ∧ (gameActive (signals w) = false → reported player (document layout w) w = []).
Proof.
  intros ND Ho topRect bottomRect hit.
  apply list_elem_of_lookup in Ho as [i Hi].
  pose proof (NoDup_ids_first _ _ _ ND Hi) as Hfirst.
  assert (mounted w = true →
          hitsObstacle player (document layout w) o = true ↔
          (overlapsHorizontally player topRect ∨ overlapsHorizontally player bottomRect)
          ∧ ¬ insideGap player topRect bottomRect) as Hhit.
  { intros Hm. rewrite hitsObstacle_true. unfold document. rewrite Hm.
    rewrite (getElementById_render_top layout _ i o Hi Hfirst).
    rewrite (getElementById_render_bottom layout _ i o Hi Hfirst).
    split.
    - by intros (t & b & [= <-] & [= <-] & H).
    - intros H. by exists topRect, bottomRect. }
  assert (hit → mounted w = true ∧ hitsObstacle player (document layout w) o = true) as Hin.
  { unfold hit. rewrite reported_eq. destruct (_ || _); [by intros ?%elem_of_nil|].
    intros [H _]%list_elem_of_filter. split; [|done].
    destruct (mounted w) eqn:Hm; [done|].
    apply hitsObstacle_true in H as (t & b & H & _).
    unfold document in H. by rewrite Hm in H. }
  split; [|split; [|split]].
  - intros Ha Hp Hm. rewrite <- (Hhit Hm). unfold hit. rewrite reported_eq, Ha, Hp. simpl.
    rewrite list_elem_of_filter. split; [tauto|]. intros H. split; [done|].
    apply list_elem_of_lookup. by exists i.
  - intros H1 H2 [Hm H]%Hin. apply (Hhit Hm) in H. tauto.
  - intros H1 [Hm H]%Hin. apply (Hhit Hm) in H. tauto.
  - intros Ha. rewrite reported_eq, Ha. by rewrite orb_true_r.
Qed.

Section Host.

(** The host's [Math.random] and [Date.now]. *)
Variable Math_random : nat -> Q.
Variable Date_now : nat -> Z.

(** *** The obstacle pass *)


Lemma Math_max_cons a xs :
  Math_max (a :: xs) = Some (match Math_max xs with Some m => Qmax a m | None => a end).
Proof. reflexivity. Qed.

Lemma Math_max_Some xs : xs ≠ [] → ∃ m, Math_max xs = Some m.
Proof. destruct xs as [|a xs]; [done|]. intros _. rewrite Math_max_cons. eauto. Qed.



Lemma withCounters_id w :
  withCounters (score (signals w)) (randomCalls w) (nowCalls w) w = w.
Proof. by destruct w as [[] ? ? ? ? ? ? ?]. Qed.

Lemma withCounters_twice sc rc nc sc' rc' nc' w :
  withCounters sc rc nc (withCounters sc' rc' nc' w) = withCounters sc rc nc w.
Proof. reflexivity. Qed.

(** The obstacle that [createObstacle] builds, and the calls it makes. *)
Lemma createObstacle_eq xPosition id0 w :
  createObstacle Math_random Date_now xPosition id0 w =
  ({| id := if (id0 =? 0)%Z then Date_now (nowCalls w) else id0;
      x := xPosition;
      height := 20 + Math_random (randomCalls w) * 50;
      gapSize := 30 |},
   withCounters (score (signals w)) (S (randomCalls w))
     (if (id0 =? 0)%Z then S (nowCalls w) else nowCalls w) w).
Proof.
  unfold createObstacle, callRandom, callNow. simpl.
  destruct (id0 =? 0)%Z; simpl; f_equal; by destruct w as [[] ? ? ? ? ? ? ?].
Qed.

Lemma recycleAt_recycles i arr w o :
  arr !! i = Some o → x o < -50 →
  ∃ rightmostX,
    Math_max (map x arr) = Some rightmostX
    ∧ recycleAt Math_random Date_now i (arr, w) =
      (<[i := replacement Math_random Date_now rightmostX w]> arr,
       withCounters (score (signals w) + 1) (S (randomCalls w))
         (if (Date_now (nowCalls w) =? 0)%Z then S (S (nowCalls w)) else S (nowCalls w)) w).
Proof.
  intros Hi Hx.
  destruct (Math_max_Some (map x arr)) as [m Hm].
  { intros E. apply (f_equal length) in E. rewrite length_map in E.
    apply lookup_lt_Some in Hi. simpl in E. lia. }
  exists m. split; [done|].
  unfold recycleAt. rewrite Hi. apply Qltb_lt in Hx. rewrite Hx, Hm.
  unfold callNow. rewrite createObstacle_eq. unfold replacement. simpl.
  destruct (Date_now (nowCalls w) =? 0)%Z; reflexivity.
Qed.

Lemma recycleAt_keeps i arr w o :
  arr !! i = Some o → -50 <= x o →
  recycleAt Math_random Date_now i (arr, w) = (arr, w).
Proof.
  intros Hi Hx. unfold recycleAt. rewrite Hi. apply Qltb_ge in Hx. by rewrite Hx.
Qed.

Lemma recycleAt_length i st :
  length (fst (recycleAt Math_random Date_now i st)) = length (fst st).
Proof.
  destruct st as [arr w]. destruct (arr !! i) as [o|] eqn:Hi.
  - destruct (Qlt_le_dec (x o) (-50)) as [Hx|Hx].
    + destruct (recycleAt_recycles i arr w o Hi Hx) as (m & _ & ->). simpl.
      apply length_insert.
    + by rewrite (recycleAt_keeps i arr w o Hi Hx).
  - unfold recycleAt. by rewrite Hi.
Qed.

Lemma recycleAt_counters i arr w :
  ∃ sc rc nc, snd (recycleAt Math_random Date_now i (arr, w)) = withCounters sc rc nc w.
Proof.
  destruct (arr !! i) as [o|] eqn:Hi.
  - destruct (Qlt_le_dec (x o) (-50)) as [Hx|Hx].
    + destruct (recycleAt_recycles i arr w o Hi Hx) as (m & _ & ->). simpl. eauto.
    + rewrite (recycleAt_keeps i arr w o Hi Hx). simpl.
      eexists _, _, _. symmetry. apply withCounters_id.
  - unfold recycleAt. rewrite Hi. simpl. eexists _, _, _. symmetry. apply withCounters_id.
Qed.

(** The loop visits the indices [i], [i+1], ... up to the end of the array,
    once each: it is the iteration of [recycleAt] over them. *)
Lemma recycleLoop_fold fuel i st :
  (length (fst st) ≤ i + fuel)%nat →
  recycleLoop Math_random Date_now fuel i st
  = foldl (fun st j => recycleAt Math_random Date_now j st) st
      (seq i (length (fst st) - i)).
Proof.
  revert i st. induction fuel as [|fuel IH]; intros i st Hlen; simpl.
  - replace (length (fst st) - i)%nat with 0%nat by lia. done.
  - destruct (Nat.ltb_spec i (length (fst st))) as [Hi|Hi].
    + rewrite IH by (rewrite recycleAt_length; lia).
      rewrite recycleAt_length.
      replace (length (fst st) - i)%nat with (S (length (fst st) - S i)) by lia.
      done.
    + replace (length (fst st) - i)%nat with 0%nat by lia. done.
Qed.

Lemma moveObstacles_fold prev w :
  moveObstacles Math_random Date_now prev w
  = foldl (fun st j => recycleAt Math_random Date_now j st) (map moveLeft prev, w)
      (seq 0 (length prev)).
Proof.
  unfold moveObstacles. rewrite recycleLoop_fold by (simpl; lia).
  simpl. by rewrite length_map, Nat.sub_0_r.
Qed.

(** More fuel changes nothing: the loop stops at the end of the array. *)
Lemma recycleLoop_fuel fuel i st :
  (length (fst st) ≤ i + fuel)%nat →
  recycleLoop Math_random Date_now fuel i st
  = recycleLoop Math_random Date_now (length (fst st) - i) i st.
Proof.
  intros H. rewrite !recycleLoop_fold by lia. done.
Qed.

Lemma foldl_recycleAt_length js st :
  length (fst (foldl (fun st j => recycleAt Math_random Date_now j st) st js))
  = length (fst st).
Proof.
  revert st. induction js as [|j js IH]; intros st; [done|].
  cbn [foldl]. rewrite IH. apply recycleAt_length.
Qed.

Lemma foldl_recycleAt_counters js arr w :
  ∃ sc rc nc,
    snd (foldl (fun st j => recycleAt Math_random Date_now j st) (arr, w) js)
    = withCounters sc rc nc w.
Proof.
  revert arr w. induction js as [|j js IH]; intros arr w; cbn [foldl].
  - eexists _, _, _. symmetry. apply withCounters_id.
  - destruct (recycleAt_counters j arr w) as (sc & rc & nc & E).
    destruct (recycleAt Math_random Date_now j (arr, w)) as [arr1 w1]. simpl in E. subst w1.
    destruct (IH arr1 (withCounters sc rc nc w)) as (sc' & rc' & nc' & ->).
    rewrite withCounters_twice. eauto.
Qed.

Lemma moveObstacles_length prev w :
  length (fst (moveObstacles Math_random Date_now prev w)) = length prev.
Proof. rewrite moveObstacles_fold, foldl_recycleAt_length. simpl. apply length_map. Qed.

Lemma moveObstacles_counters prev w :
  ∃ sc rc nc, snd (moveObstacles Math_random Date_now prev w) = withCounters sc rc nc w.
Proof. rewrite moveObstacles_fold. apply foldl_recycleAt_counters. Qed.




Lemma countLeft_cons o l :
  countLeft (o :: l) = ((if Qltb (x o) (-50) then 1 else 0) + countLeft l)%nat.
Proof. reflexivity. Qed.

(** The score grows by one for each obstacle that the loop finds left of
    the threshold. *)
Lemma foldl_recycleAt_score k i arr w :
  score (signals (snd (foldl (fun st j => recycleAt Math_random Date_now j st) (arr, w)
                         (seq i k))))
  = (score (signals w) + Z.of_nat (countLeft (take k (drop i arr))))%Z.
Proof.
  revert i arr w. induction k as [|k IH]; intros i arr w; [simpl; lia|].
  cbn [seq foldl]. destruct (arr !! i) as [o|] eqn:Hi.
  - rewrite (drop_S _ _ _ Hi). cbn [take]. rewrite countLeft_cons.
    destruct (Qlt_le_dec (x o) (-50)) as [Hx|Hx].
    + destruct (recycleAt_recycles i arr w o Hi Hx) as (m & _ & ->).
      rewrite IH. rewrite drop_insert_lt by lia.
      apply Qltb_lt in Hx. rewrite Hx. simpl. lia.
    + rewrite (recycleAt_keeps i arr w o Hi Hx). rewrite IH.
      apply Qltb_ge in Hx. rewrite Hx. simpl. lia.
  - assert (recycleAt Math_random Date_now i (arr, w) = (arr, w)) as ->
      by (unfold recycleAt; by rewrite Hi).
    rewrite IH. apply lookup_ge_None in Hi.
    rewrite !drop_ge by lia. by rewrite !take_nil.
Qed.

Lemma moveObstacles_score prev w :
  score (signals (snd (moveObstacles Math_random Date_now prev w)))
  = (score (signals w) + Z.of_nat (countLeft (map moveLeft prev)))%Z.
Proof.
  rewrite moveObstacles_fold, foldl_recycleAt_score. rewrite drop_0.
  rewrite take_ge; [done|]. by rewrite length_map.
Qed.



(** *** Left-to-right order *)



(** *** One frame *)

(** [updateGame] on an active game, spelled out: the gravity step, the
    obstacle pass, collision detection, and the request for the next
    frame, which is always made. *)
Lemma updateGame_active player layout w :
  gameActive (signals w) = true →
  let w0 := setPlayerPosition (fun prev => {| y := Qmin 90 (y prev + 0.5) |}) (emit Tick w) in
  let mo := moveObstacles Math_random Date_now (obstacles (signals w)) w0 in
  let w1 := setObstacles (fst mo) (snd mo) in
  updateGame Math_random Date_now player layout w
  = requestAnimationFrame (detectCollisions player (document layout w1) w1).
Proof.
  intros Ha w0 mo w1. unfold updateGame. rewrite Ha. simpl.
  fold w0. change (obstacles (signals w)) with (obstacles (signals w0)).
  change (obstacles (signals w)) with (obstacles (signals w0)) in mo.
  fold mo. destruct (moveObstacles_counters (obstacles (signals w0)) w0) as (sc & rc & nc & E).
  fold mo in E. destruct mo as [new w'] eqn:Emo. simpl in E. subst w'. simpl in w1. fold w1.
  assert (gameActive (signals (detectCollisions player (document layout w1) w1)) = true) as ->.
  { rewrite detectCollisions_eq. destruct (_ || _); simpl; exact Ha. }
  done.
Qed.

(** A frame never clears the active flag, and on an active game it always
    requests the next frame, whatever collision detection found. *)
Lemma updateGame_stays_active player layout w :
  gameActive (signals w) = true →
  gameActive (signals (updateGame Math_random Date_now player layout w)) = true
  ∧ animationFrames (pending (updateGame Math_random Date_now player layout w))
    = S (animationFrames (pending w)).
Proof.
  intros Ha. rewrite (updateGame_active player layout w Ha).
  set (w0 := setPlayerPosition _ (emit Tick w)).
  destruct (moveObstacles_counters (obstacles (signals w)) w0) as (sc & rc & nc & E).
  rewrite detectCollisions_eq. destruct (_ || _); simpl; rewrite E; simpl; auto.
Qed.

(** *** Events *)

(** [initGame] either returns at its guard or resets the game. *)
Lemma initGame_cases rect w :
  initGame Math_random Date_now rect w = w
  ∨ initGame Math_random Date_now rect w =
    {| signals :=
         {| score := 0; playerPosition := {| y := 50 |};
            obstacles := seeds Math_random (DOMRect.width rect) (randomCalls w);
            gameActive := true;
            gameWidth := DOMRect.width rect; gameHeight := DOMRect.height rect |};
       refs := refs w; mounted := mounted w; listening := listening w;
       pending :=
         {| animationFrames := S (animationFrames (pending w));
            crashTweens := crashTweens (pending w);
            restartTimeouts := restartTimeouts (pending w);
            closeTweens := closeTweens (pending w) |};
       randomCalls := S (S (S (randomCalls w))); nowCalls := nowCalls w;
       trace := trace w ++ [InitGame] |}.
Proof.
  unfold initGame. destruct (_ || _); [by left|]. right.
  rewrite !createObstacle_eq. reflexivity.
Qed.

Lemma initGame_change rect e w w0 :
  e = Mount rect ∨ e = RestartTimeout rect →
  playerPosition (signals w0) = playerPosition (signals w) →
  obstacles (signals w0) = obstacles (signals w) →
  score (signals w0) = score (signals w) →
  Change Math_random Date_now w e (initGame Math_random Date_now rect w0).
Proof.
  intros He Hp Ho Hs. destruct (initGame_cases rect w0) as [-> | ->].
  - by apply Unchanged.
  - by eapply Reset.
Qed.

Lemma step_change w e : Change Math_random Date_now w e (step Math_random Date_now w e).
Proof.
  unfold step. destruct (negb (enabled e w)); [by apply Unchanged|].
  destruct e as [area|key| |player layout| |area| ].
  - unfold mount. simpl. apply initGame_change; auto.
  - unfold handleControls. destruct (negb _); [by apply Unchanged|].
    destruct (_ || _); [by eapply Moved; [left|..]|].
    destruct (bool_decide (key = "ArrowDown")); [by eapply Moved; [right|..]|].
    destruct (bool_decide (key = "Escape")); by apply Unchanged.
  - by apply Unchanged.
  - destruct (gameActive (signals w)) eqn:Ha.
    + assert (gameActive (signals (withPending takeFrame w)) = true) as Ha' by done.
      rewrite (updateGame_active player layout _ Ha').
      set (w0 := setPlayerPosition _ (emit Tick (withPending takeFrame w))).
      change (obstacles (signals (withPending takeFrame w))) with (obstacles (signals w)).
      destruct (moveObstacles_counters (obstacles (signals w)) w0) as (sc & rc & nc & E).
      eapply (Ticked _ _ _ _ _ w0); [done| | | |done];
        rewrite detectCollisions_eq; destruct (_ || _); simpl; try done;
        rewrite E; done.
    + unfold updateGame. simpl. rewrite Ha. simpl. by apply Unchanged.
  - by apply Unchanged.
  - unfold restartTimeout. destruct (gameRef _); [|by apply Unchanged].
    apply initGame_change; auto.
  - unfold onClose. simpl. destruct (mounted w); by apply Unchanged.
Qed.

Lemma run_snoc w events e :
  run Math_random Date_now w (events ++ [e])
  = step Math_random Date_now (run Math_random Date_now w events) e.
Proof. unfold run. by rewrite fold_left_app. Qed.

(** Induction along a run: what holds at the start and is kept by every
    event holds all along. *)
Lemma run_invariant (P : World → Prop) w events :
  P w → (∀ w e, P w → P (step Math_random Date_now w e)) →
  P (run Math_random Date_now w events).
Proof.
  intros H0 Hstep. induction events as [|e events IH] using rev_ind; [done|].
  rewrite run_snoc. by apply Hstep.
Qed.

(** *** Order along a run *)















(** *** The player's position *)

Lemma gravity_in_range yy : 0 <= yy → 0 <= Qmin 90 (yy + 0.5) <= 90.
Proof. intros H. split; [apply Q.min_glb; lra | apply Q.le_min_l]. Qed.

Lemma up_in_range yy : yy <= 90 → 0 <= Qmax 0 (yy - 5) <= 90.
Proof. intros H. split; [apply Q.le_max_l | apply Q.max_lub; lra]. Qed.

Lemma down_in_range yy : 0 <= yy → 0 <= Qmin 90 (yy + 5) <= 90.
Proof. intros H. split; [apply Q.min_glb; lra | apply Q.le_min_l]. Qed.

Lemma step_playerY_in_range w e :
  0 <= y (playerPosition (signals w)) <= 90 →
  0 <= y (playerPosition (signals (step Math_random Date_now w e))) <= 90.
Proof.
  intros [H0 H90].
  destruct (step_change w e) as [-> _ _ | yy [-> | ->] -> _ _ | ? ? _ -> _ _ | ? _ -> _ _ _];
    simpl; auto using gravity_in_range, up_in_range, down_in_range.
  lra.
Qed.

(** The gravity step of a frame on an active game. *)
Lemma updateGame_playerY player layout w :
  gameActive (signals w) = true →
  playerPosition (signals (updateGame Math_random Date_now player layout w))
  = {| y := Qmin 90 (y (playerPosition (signals w)) + 0.5) |}.
Proof.
  intros Ha. rewrite (updateGame_active player layout w Ha).
  set (w0 := setPlayerPosition _ (emit Tick w)).
  destruct (moveObstacles_counters (obstacles (signals w)) w0) as (sc & rc & nc & E).
  rewrite detectCollisions_eq. destruct (_ || _); simpl; rewrite E; reflexivity.
Qed.

(** C5.  Along every sequence of events from the creation of the component
    (mount and [initGame], frames, key presses, crashes, restarts, close),
    with any geometry and any values of [Math.random] and [Date.now],
    [playerY] lies in [0, 90].  In particular a frame on an active game
    leaves [playerY] at most 90 whatever it was before, and every key
    press keeps a [playerY] of [0, 90] within [0, 90]. *)
Theorem playerY_in_range (events : list Event) :
  (let w := run Math_random Date_now created events in
   0 <= y (playerPosition (signals w)) <= 90)
  ∧ (∀ w player layout,
       gameActive (signals w) = true →
       y (playerPosition (signals (updateGame Math_random Date_now player layout w))) <= 90)
  ∧ (∀ w key,
       0 <= y (playerPosition (signals w)) <= 90 →
       0 <= y (playerPosition (signals (handleControls key w))) <= 90).
Proof.
  split; [|split].
  - apply (run_invariant (fun w => 0 <= y (playerPosition (signals w)) <= 90)).
    + simpl. lra.
    + apply step_playerY_in_range.
  - intros w player layout Ha. rewrite (updateGame_playerY player layout w Ha). simpl.
    apply Q.le_min_l.
  - intros w key [H0 H90]. unfold handleControls.
    destruct (negb _); [done|].
    destruct (_ || _); [simpl; by apply up_in_range|].
    destruct (bool_decide (key = "ArrowDown")); [simpl; by apply down_in_range|].
    destruct (bool_decide (key = "Escape")); done.
Qed.

(** *** The obstacles' gaps *)

Lemma foldl_recycleAt_invariant (P : list Obstacle → Prop) js arr w :
  P arr →
  (∀ i arr w, P arr → P (fst (recycleAt Math_random Date_now i (arr, w)))) →
  P (fst (foldl (fun st j => recycleAt Math_random Date_now j st) (arr, w) js)).
Proof.
  intros H0 Hstep. revert arr w H0. induction js as [|j js IH]; intros arr w H0; [done|].
  cbn [foldl]. specialize (Hstep j arr w H0).
  destruct (recycleAt Math_random Date_now j (arr, w)) as [arr1 w1]. by apply IH.
Qed.

Section RandomInRange.

(** [Math.random] returns a number of [0, 1). *)
Hypothesis random_range : ∀ k, 0 <= Math_random k ∧ Math_random k < 1.

Lemma replacement_wellGapped m w : wellGapped (replacement Math_random Date_now m w).
Proof.
  unfold wellGapped, replacement. simpl.
  destruct (random_range (randomCalls w)). repeat split; lra.
Qed.

Lemma seeds_wellGapped width rc : Forall wellGapped (seeds Math_random width rc).
Proof.
  unfold seeds, wellGapped. repeat constructor; simpl;
    try (destruct (random_range rc); lra);
    try (destruct (random_range (S rc)); lra);
    try (destruct (random_range (S (S rc))); lra).
Qed.

Lemma recycleAt_wellGapped i arr w :
  Forall wellGapped arr →
  Forall wellGapped (fst (recycleAt Math_random Date_now i (arr, w))).
Proof.
  intros H. destruct (arr !! i) as [o|] eqn:Hi.
  - destruct (Qlt_le_dec (x o) (-50)) as [Hx|Hx].
    + destruct (recycleAt_recycles i arr w o Hi Hx) as (m & _ & ->). simpl.
      apply Forall_insert; [done | apply replacement_wellGapped].
    + by rewrite (recycleAt_keeps i arr w o Hi Hx).
  - unfold recycleAt. by rewrite Hi.
Qed.

Lemma moveObstacles_wellGapped prev w :
  Forall wellGapped prev →
  Forall wellGapped (fst (moveObstacles Math_random Date_now prev w)).
Proof.
  intros H. rewrite moveObstacles_fold.
  apply foldl_recycleAt_invariant; [|apply recycleAt_wellGapped].
  apply Forall_fmap. eapply Forall_impl; [exact H|]. by intros o.
Qed.

Lemma step_wellGapped w e :
  Forall wellGapped (obstacles (signals w)) →
  Forall wellGapped (obstacles (signals (step Math_random Date_now w e))).
Proof.
  intros H.
  destruct (step_change w e) as [_ -> _ | ? _ _ -> _ | ? ? _ _ -> _ | ? _ _ -> _ _];
    auto using seeds_wellGapped, moveObstacles_wellGapped.
Qed.

(** C6.  With [Math.random] in [0, 1): along every sequence of events from
    the creation of the component, every live obstacle has [gapTopHeight]
    ([height]) in [20, 70] and [gapSize] 30, and the height that the
    render gives its bottom barrier is [100 - gapTopHeight - 30]; this
    covers the three obstacles that [initGame] seeds and every obstacle
    that a frame recycles. *)
Theorem obstacles_gap_invariant (events : list Event) (o : Obstacle) :
  o ∈ obstacles (signals (run Math_random Date_now created events)) →
  (20 <= height o ∧ height o <= 70)
  ∧ gapSize o = 30
  ∧ heightPct (bottomStyle o) = 100 - height o - 30.
Proof.
  intros Ho.
  assert (Forall wellGapped (obstacles (signals (run Math_random Date_now created events))))
    as H.
  { apply (run_invariant (fun w => Forall wellGapped (obstacles (signals w)))).
    - constructor.
    - apply step_wellGapped. }
  rewrite Forall_forall in H. destruct (H o Ho) as (H1 & H2 & H3).
  split; [done|]. split; [done|]. unfold bottomStyle. simpl. by rewrite H3.
Qed.

End RandomInRange.

(** *** The close path *)

Lemma countOnClose_app t1 t2 : countOnClose (t1 ++ t2) = (countOnClose t1 + countOnClose t2)%nat.
Proof.
  induction t1 as [|e t1 IH]; [done|]. destruct e; simpl; rewrite IH; done.
Qed.

Lemma step_escape_active w :
  listening w = true → gameActive (signals w) = true →
  step Math_random Date_now w (KeyDown "Escape") = closeGame w.
Proof.
  intros Hl Ha. unfold step. cbn [enabled]. rewrite Hl. cbn [negb].
  unfold handleControls. rewrite Ha. reflexivity.
Qed.

(** C4, as amended.  While the keyboard listener is attached: if the game
    is active, an Escape key press takes the close path, that is, it clears
    the active flag and starts the exit tween without calling the host's
    close callback yet, and the completion of that tween calls the callback
    once; if the game is not active (crashed), the key press is ignored and
    the world stays as it is. *)
Theorem escape_closes_active_game (w : World) :
  listening w = true →
  (gameActive (signals w) = true →
   let w1 := step Math_random Date_now w (KeyDown "Escape") in
   gameActive (signals w1) = false
   ∧ closeTweens (pending w1) = S (closeTweens (pending w))
   ∧ onCloseCalls w1 = onCloseCalls w
   ∧ onCloseCalls (step Math_random Date_now w1 CloseTweenComplete) = S (onCloseCalls w))
  ∧ (gameActive (signals w) = false →
     step Math_random Date_now w (KeyDown "Escape") = w).
Proof.
  intros Hl. split.
  - intros Ha w1. subst w1. rewrite (step_escape_active w Hl Ha).
    split; [done|]. split; [done|]. unfold onCloseCalls. split.
    + cbn. rewrite countOnClose_app. cbn. lia.
    + unfold step. cbn [enabled closeGame].
      rewrite bool_decide_eq_true_2 by (cbn; lia). cbn [negb].
      unfold onClose. cbn. destruct (mounted w); cbn; rewrite !countOnClose_app; cbn; lia.
  - intros Ha. unfold step. cbn [enabled]. rewrite Hl. cbn [negb].
    unfold handleControls. by rewrite Ha.
Qed.

End Host.

End FlappyFacts.

(* ===================================================================== *)
(** ** The game on concrete inputs                                        *)
(* ===================================================================== *)

Section FlappyRuns.
Import Flappy FlappyExamples FlappyPlay.
Local Open Scope Q_scope.

Lemma halfRandom_range k : 0 <= halfRandom k ∧ halfRandom k < 1.
Proof. unfold halfRandom. split; lra. Qed.

(** C1 on the Konami code: typing it twice fires at the tenth and at the
    twentieth key, and the two firings are ten keys apart. *)
Lemma detector_fires_on_last_keys_witness :
  (9 < 19)%nat
  ∧ SecretCode.fires SecretCode.KONAMI_CODE
      (SecretCode.repeatPattern 2 SecretCode.KONAMI_CODE) !! 9%nat = Some true
  ∧ SecretCode.fires SecretCode.KONAMI_CODE
      (SecretCode.repeatPattern 2 SecretCode.KONAMI_CODE) !! 19%nat = Some true
  ∧ (length SecretCode.KONAMI_CODE ≤ 19 - 9)%nat.
Proof.
  assert (9 < 19)%nat as H by lia.
  assert (SecretCode.fires SecretCode.KONAMI_CODE
            (SecretCode.repeatPattern 2 SecretCode.KONAMI_CODE) !! 9%nat = Some true)
    as H9 by (vm_compute; reflexivity).
  assert (SecretCode.fires SecretCode.KONAMI_CODE
            (SecretCode.repeatPattern 2 SecretCode.KONAMI_CODE) !! 19%nat = Some true)
    as H19 by (vm_compute; reflexivity).
  split; [exact H|]. split; [exact H9|]. split; [exact H19|].
  exact (proj1 (proj2 (proj2
           (detector_fires_on_last_keys SecretCode.KONAMI_CODE
              (SecretCode.repeatPattern 2 SecretCode.KONAMI_CODE)))) 9%nat 19%nat H H9 H19).
Defined.

(** C2 fails on the code.  In a game played from the mount, the frames
    that recycle the first and the second obstacle read the clock in the
    same millisecond, so that both recycled obstacles carry that reading as
    id.  In frame 336 the obstacles stand at 78, 378 and 678, and the
    rocket, at 40 to 80, has fallen below the gap.  Only the first obstacle
    overlaps the rocket horizontally, yet [detectCollisions] reports a
    collision for the second as well, and [handleCollision] is called
    twice: the second obstacle is tested against the barriers that
    [getElementById] finds for the shared id, those of the first. *)
Theorem shared_id_reports_distant_obstacle :
  deliverable halfRandom repeatedReading created (flight ++ [crashFrame]) = true
  ∧ rendered halfRandom repeatedReading created (flight ++ [crashFrame]) = true
  ∧ gameActive (signals atDetect) = true ∧ mounted atDetect = true
  ∧ run halfRandom repeatedReading created (flight ++ [crashFrame])
    = requestAnimationFrame (detectCollisions crashBox (document layout atDetect) atDetect)
  ∧ obstacles (signals atDetect)
    = [obstacleAt 1700000000000 78; obstacleAt 1700000000000 378;
       obstacleAt 1700000000002 678]
  ∧ ¬ overlapsHorizontally crashBox (layout (topStyle (obstacleAt 1700000000000 378)))
  ∧ ¬ overlapsHorizontally crashBox (layout (bottomStyle (obstacleAt 1700000000000 378)))
  ∧ reported crashBox (document layout atDetect) atDetect
    = [obstacleAt 1700000000000 78; obstacleAt 1700000000000 378]
  ∧ drop (length (trace inFlight))
      (trace (run halfRandom repeatedReading created (flight ++ [crashFrame])))
    = [Tick; Collision (obstacleAt 1700000000000 78);
       Collision (obstacleAt 1700000000000 378)]
  ∧ crashTweens (pending (run halfRandom repeatedReading created (flight ++ [crashFrame])))
    = 2%nat.
Proof.
  split; [vm_compute; reflexivity|]. split; [vm_compute; reflexivity|].
  split; [vm_compute; reflexivity|]. split; [vm_compute; reflexivity|].
  split; [vm_compute; reflexivity|]. split; [vm_compute; reflexivity|].
  split; [intros [H _]; vm_compute in H; discriminate H|].
  split; [intros [H _]; vm_compute in H; discriminate H|].
  split; [vm_compute; reflexivity|]. split; vm_compute; reflexivity.
Qed.

(** X21 on the frame of the crash: the game is active, the ids are 1, 2,
    3, and the first obstacle is reported. *)
Lemma collision_rule_witness :
  NoDup (map id (obstacles (signals afterCrashTick)))
  ∧ firstObstacle ∈ obstacles (signals afterCrashTick)
  ∧ (firstObstacle ∈ reported playerOnTopBarrier (document layout afterCrashTick)
                       afterCrashTick
     ↔ (overlapsHorizontally playerOnTopBarrier (layout (topStyle firstObstacle))
        ∨ overlapsHorizontally playerOnTopBarrier (layout (bottomStyle firstObstacle)))
       ∧ ¬ insideGap playerOnTopBarrier
             (layout (topStyle firstObstacle)) (layout (bottomStyle firstObstacle))).
Proof.
  assert (NoDup (map id (obstacles (signals afterCrashTick)))) as ND.
  { apply (bool_decide_unpack _). vm_compute. exact I. }
  assert (firstObstacle ∈ obstacles (signals afterCrashTick)) as Hin.
  { apply list_elem_of_lookup. exists 0%nat. vm_compute. reflexivity. }
  split; [exact ND|]. split; [exact Hin|].
  apply (proj1 (collision_rule afterCrashTick playerOnTopBarrier layout firstObstacle ND Hin));
    vm_compute; reflexivity.
Defined.

(** C3 fails on the code.  The frame [crashTick] finds a collision with the
    first obstacle; when it returns the game is still active and the next
    frame has been requested; that frame runs the tick again.  After two
    such frames, two crash tweens and two restart timers, two frames are
    pending at once. *)
Theorem crash_tick_keeps_running :
  deliverable halfRandom tickingClock created (approach ++ [crashTick; crashTick]) = true
  ∧ gameActive (signals beforeCrash) = true
  ∧ drop (length (trace beforeCrash)) (trace afterCrashTick)
    = [Tick; Collision firstObstacle]
  ∧ gameActive (signals afterCrashTick) = true
  ∧ animationFrames (pending afterCrashTick) = 1%nat
  ∧ take 1 (drop (length (trace afterCrashTick)) (trace (go afterCrashTick [crashTick])))
    = [Tick]
  ∧ deliverable halfRandom tickingClock beforeCrash doubleCrash = true
  ∧ animationFrames (pending (go beforeCrash doubleCrash)) = 2%nat.
Proof. vm_compute. repeat split; reflexivity. Qed.

(** C4 does not hold as stated: in the crashed state the component is
    mounted and listening, the game is not active, and an Escape key press
    changes nothing: no exit tween is started, so the close callback is
    never called for it. *)
Lemma escape_ignored_when_crashed :
  mounted crashed = true ∧ listening crashed = true
  ∧ gameActive (signals crashed) = false
  ∧ go crashed [KeyDown "Escape"] = crashed
  ∧ closeTweens (pending (go crashed [KeyDown "Escape"])) = 0%nat
  ∧ onCloseCalls (go crashed [KeyDown "Escape"; CloseTweenComplete]) = 0%nat.
Proof. vm_compute. repeat split; reflexivity. Qed.

(** C4, as amended, on the active game before the crash. *)
Lemma escape_closes_active_game_witness :
  listening beforeCrash = true
  ∧ gameActive (signals beforeCrash) = true
  ∧ onCloseCalls
      (step halfRandom tickingClock
         (step halfRandom tickingClock beforeCrash (KeyDown "Escape")) CloseTweenComplete)
    = S (onCloseCalls beforeCrash).
Proof.
  assert (listening beforeCrash = true) as Hl by (vm_compute; reflexivity).
  assert (gameActive (signals beforeCrash) = true) as Ha by (vm_compute; reflexivity).
  split; [exact Hl|]. split; [exact Ha|].
  exact (proj2 (proj2 (proj2
    (proj1 (escape_closes_active_game halfRandom tickingClock beforeCrash Hl) Ha)))).
Defined.

(** C5 on the freshly mounted game ([playerY] is 50) and the up key. *)
Lemma playerY_in_range_witness :
  0 <= y (playerPosition (signals (go created [Mount area]))) <= 90
  ∧ 0 <= y (playerPosition (signals (handleControls "ArrowUp" (go created [Mount area]))))
    <= 90.
Proof.
  assert (0 <= y (playerPosition (signals (go created [Mount area]))) <= 90) as H
    by (split; vm_compute; discriminate).
  split; [exact H|].
  exact (proj2 (proj2 (playerY_in_range halfRandom tickingClock []))
           (go created [Mount area]) "ArrowUp" H).
Defined.

(** C6 on a run: the first obstacle after the mount and forty frames. *)
Lemma obstacles_gap_invariant_witness :
  (∀ k, 0 <= halfRandom k ∧ halfRandom k < 1)
  ∧ firstObstacle
    ∈ obstacles (signals (run halfRandom tickingClock created (approach ++ [crashTick])))
  ∧ (20 <= height firstObstacle ∧ height firstObstacle <= 70)
  ∧ gapSize firstObstacle = 30
  ∧ heightPct (bottomStyle firstObstacle) = 100 - height firstObstacle - 30.
Proof.
  assert (firstObstacle
          ∈ obstacles (signals (run halfRandom tickingClock created (approach ++ [crashTick]))))
    as Hin.
  { apply list_elem_of_lookup. exists 0%nat. vm_compute. reflexivity. }
  split; [exact halfRandom_range|]. split; [exact Hin|].
  exact (obstacles_gap_invariant halfRandom tickingClock halfRandom_range
           (approach ++ [crashTick]) firstObstacle Hin).
Defined.


(** C8 fails on the code.  In [crowded] the ids are 1, 2, 3 and the first
    two obstacles leave the field in the same frame; both calls of
    [Date.now] fall in the same millisecond and both recycled obstacles
    get that reading as id.  The same happens from the mount when the
    frames that recycle the first and the second obstacle read the same
    millisecond. *)
Theorem recycled_ids_collide :
  map id (obstacles (signals crowded)) = [1; 2; 3]%Z
  ∧ map id (obstacles (signals crowdedFrame)) = [1700000000000; 1700000000000; 3]%Z
  ∧ ¬ NoDup (map id (obstacles (signals crowdedFrame)))
  ∧ deliverable halfRandom sameMillisecond created fastFrames = true
  ∧ map id (obstacles (signals afterFastFrames)) = [1700000000000; 1700000000000; 3]%Z.
Proof.
  split; [vm_compute; reflexivity|]. split; [vm_compute; reflexivity|].
  split; [|split; vm_compute; reflexivity].
  intros ND. apply (bool_decide_pack _) in ND. vm_compute in ND. exact ND.
Qed.

(** C9 fails on the code.  The game has crashed and its restart timer is
    pending when the player clicks the close button.  The timer then finds
    [gameRef] still set, runs [initGame], and the next frame runs the tick
    body, after the close has begun; so does the frame that follows the
    call of the close callback and the cleanup. *)
Theorem tick_runs_after_close :
  deliverable halfRandom tickingClock created
    (approach ++ [crashTick; CrashTweenComplete] ++ closingEvents) = true
  ∧ drop (length (trace crashed)) (trace afterClosing)
    = [CloseGame; InitGame; Tick; OnClose; Cleanup; Tick]
  ∧ mounted afterClosing = false
  ∧ gameActive (signals afterClosing) = true
  ∧ animationFrames (pending afterClosing) = 1%nat.
Proof. vm_compute. repeat split; reflexivity. Qed.

(** The detector's side of the teardown: once stopped, the detector takes
    no key any more. *)
Lemma stopped_detector_is_silent (d : SecretCode.SecretCodeDetector) (key : string) :
  SecretCode.keydown (SecretCode.stop d) key = (SecretCode.stop d, []).
Proof.
  unfold SecretCode.keydown, SecretCode.stop. by destruct (SecretCode.enabled d) eqn:E; simpl; rewrite ?E.
Qed.

End FlappyRuns.

(* ===================================================================== *)
(** ** More on the detector and on the page                               *)
(* ===================================================================== *)

Section SecretCodeMore.
Import SecretCode SecretCodeSession.

(** A firing closes an occurrence of the pattern: the keys up to the
    firing end with [T]. *)
Lemma specFires_suffix T observed keys j :
  specFiresFrom T observed keys !! j = Some true →
  T `suffix_of` observed ++ take (S j) keys.
Proof.
  revert observed j. induction keys as [|k ks IH]; intros observed j; [done|].
  cbn [specFiresFrom].
  destruct (lastKeysAre T (observed ++ [k])) eqn:L.
  - destruct j as [|j]; cbn [take].
    + intros _. apply lastKeysAre_true in L. rewrite take_0.
      exists (take (length (observed ++ [k]) - length T) (observed ++ [k])).
      rewrite <- L at 2. unfold lastKeys. by rewrite take_drop.
    + simpl. intros H. apply IH in H. simpl in H.
      destruct H as [pre ->]. exists (observed ++ k :: pre). by rewrite <- app_assoc.
  - destruct j as [|j]; [done|]. simpl. intros H. apply IH in H.
    by rewrite <- app_assoc in H.
Qed.

(** As long as nothing has fired, the window is made of all the keys seen. *)
Lemma specFires_quiet T observed keys j :
  (j < length keys)%nat →
  (∀ i, (i < j)%nat → specFiresFrom T observed keys !! i ≠ Some true) →
  specFiresFrom T observed keys !! j
  = Some (lastKeysAre T (observed ++ take (S j) keys)).
Proof.
  revert observed j. induction keys as [|k ks IH]; intros observed j Hj Hq;
    simpl in Hj; [lia|].
  cbn [specFiresFrom]. destruct j as [|j].
  - cbn [take]. rewrite take_0. by destruct (lastKeysAre T (observed ++ [k])).
  - destruct (lastKeysAre T (observed ++ [k])) eqn:L.
    + exfalso. apply (Hq 0%nat); [lia | simpl; by rewrite L].
    + simpl. rewrite IH.
      * by rewrite <- app_assoc.
      * lia.
      * intros i Hi Hf. apply (Hq (S i)); [lia|]. simpl. by rewrite L.
Qed.

Lemma specFires_length T observed keys :
  length (specFiresFrom T observed keys) = length keys.
Proof.
  revert observed. induction keys as [|k ks IH]; intros observed; [done|].
  simpl. destruct (lastKeysAre T (observed ++ [k])); simpl; by rewrite IH.
Qed.

Lemma fires_suffix T keys j :
  fires T keys !! j = Some true → T `suffix_of` take (S j) keys.
Proof.
  rewrite fires_specFires. unfold specFires. intros H.
  by apply specFires_suffix in H.
Qed.

(** X1.  Soundness on the raw stream: whenever the callback runs at a key,
    the keys pressed up to and including that key end with the pattern,
    and at least as many keys as the pattern has have been pressed. *)
Theorem firing_closes_an_occurrence (T keys : list string) (j : nat) :
  fires T keys !! j = Some true →
  T `suffix_of` take (S j) keys ∧ (length T ≤ S j)%nat.
Proof.
  intros H. pose proof (fires_suffix T keys j H) as Hs. split; [done|].
  destruct Hs as [pre Hpre]. apply (f_equal length) in Hpre.
  rewrite length_take, length_app in Hpre. lia.
Qed.

Lemma fires_length T keys : length (fires T keys) = length keys.
Proof. rewrite fires_specFires. apply specFires_length. Qed.

(** X2.  A stream no longer than the pattern makes the callback run if and
    only if it is the pattern itself (and is not empty): a stream of the
    pattern's length that differs from it in any key never fires. *)
Theorem short_stream_fires_iff_pattern (T keys : list string) :
  (length keys ≤ length T)%nat →
  (true ∈ fires T keys ↔ keys = T ∧ keys ≠ []).
Proof.
  intros Hlen. split.
  - intros [j Hj]%list_elem_of_lookup_1.
    pose proof (lookup_lt_Some _ _ _ Hj) as Hlt. rewrite fires_length in Hlt.
    pose proof (fires_suffix T keys j Hj) as [pre Hpre].
    rewrite fires_specFires in Hj. apply specFires_needs_keys in Hj. simpl in Hj.
    rewrite take_ge in Hpre by lia.
    assert (length pre = 0%nat) as Hp
      by (apply (f_equal length) in Hpre; rewrite length_app in Hpre; lia).
    destruct pre; [|done]. simpl in Hpre. split; [done|].
    intros ->. simpl in Hlt. lia.
  - intros [-> HT]. rewrite fires_specFires. unfold specFires.
    rewrite <- (app_nil_r T) at 2. rewrite specFires_occurrence by done.
    apply elem_of_app. right. by left.
Qed.

Lemma fires_occursIn T keys :
  T ≠ [] →
  (true ∈ fires T keys ↔ occursIn T keys).
Proof.
  intros HT. split.
  - intros [j Hj]%list_elem_of_lookup_1.
    destruct (fires_suffix T keys j Hj) as [pre Hpre].
    exists pre, (drop (S j) keys).
    rewrite app_assoc, <- Hpre. by rewrite take_drop.
  - intros (pre & post & ->). rewrite fires_specFires. unfold specFires.
    set (j := (length pre + length T - 1)%nat).
    assert (0 < length T)%nat as HlT by (destruct T; [done | simpl; lia]).
    destruct (decide (true ∈ take j (specFiresFrom T [] (pre ++ T ++ post)))) as [Hin|Hout].
    + eapply elem_of_sublist; [exact Hin | apply sublist_take].
    + apply (list_elem_of_lookup_2 _ j). rewrite specFires_quiet.
      * f_equal. apply lastKeysAre_true. simpl.
        replace (S j) with (length (pre ++ T)) by (rewrite length_app; lia).
        rewrite app_assoc, take_app_length. unfold lastKeys.
        rewrite length_app. replace (length pre + length T - length T)%nat
          with (length pre) by lia.
        by rewrite drop_app_length.
      * rewrite !length_app. lia.
      * intros i Hi Hf. apply Hout. apply (list_elem_of_lookup_2 _ i).
        by rewrite lookup_take_lt.
Qed.

(** X3.  For a non-empty pattern, the callback runs at least once on a
    stream if and only if the pattern occurs in the stream as a run of
    consecutive keys; so keys pressed before or after an occurrence never
    prevent the firing. *)
Theorem fires_iff_pattern_occurs (T keys : list string) :
  T ≠ [] →
  (true ∈ fires T keys ↔ occursIn T keys)
  ∧ ∀ before after, true ∈ fires T (before ++ T ++ after).
Proof.
  intros HT. split; [by apply fires_occursIn|].
  intros before after. apply fires_occursIn; [done|]. by exists before, after.
Qed.

(** *** The detector over its whole life *)

(** What every detector reached from its constructor satisfies. *)
Lemma perform_invariant T d op :
  secretCode d = T →
  (length (sequence d) ≤ length T)%nat →
  (enabled d = false → sequence d = []) →
  let d' := fst (perform d op) in
  secretCode d' = T
  ∧ (length (sequence d') ≤ length T)%nat
  ∧ (enabled d' = false → sequence d' = []).
Proof.
  intros HT Hlen Hoff. destruct op as [| |key]; simpl.
  - unfold start. destruct (enabled d) eqn:E; simpl;
      (split; [done|]); (split; [done|]); intros ?; congruence.
  - unfold stop. destruct (enabled d) eqn:E; simpl;
      (split; [done|]); (split; [done || lia|]); intros ?; auto.
  - unfold keydown. destruct (enabled d) eqn:E; [|by auto].
    unfold handleKeyDown. rewrite HT.
    set (pushed := sequence d ++ [key]).
    set (trimmed := if (length T <? length pushed)%nat then shift pushed else pushed).
    assert (length trimmed ≤ length T)%nat as Htrim.
    { unfold trimmed, pushed, shift. rewrite length_app. simpl.
      destruct (Nat.ltb_spec (length T) (length (sequence d) + 1)).
      - destruct (sequence d ++ [key]) eqn:Es; simpl; [lia|].
        apply (f_equal length) in Es. rewrite length_app in Es. simpl in Es. lia.
      - rewrite length_app. simpl. lia. }
    destruct (sequenceMatches _); simpl; (split; [done|]); (split; [lia || done|]);
      intros ?; congruence.
Qed.

Lemma session_invariant T ops d :
  secretCode d = T →
  (length (sequence d) ≤ length T)%nat →
  (enabled d = false → sequence d = []) →
  let d' := fst (session d ops) in
  secretCode d' = T
  ∧ (length (sequence d') ≤ length T)%nat
  ∧ (enabled d' = false → sequence d' = []).
Proof.
  revert d. induction ops as [|op ops IH]; intros d HT Hlen Hoff; [done|].
  cbn [session]. destruct (perform_invariant T d op HT Hlen Hoff) as (H1 & H2 & H3).
  destruct (perform d op) as [d1 inv]. simpl in H1, H2, H3.
  specialize (IH d1 H1 H2 H3). destruct (session d1 ops) as [d2 invs]. exact IH.
Qed.

(** X4.  Whatever is done with a detector (any sequence of [start], [stop]
    and key presses after its construction), its window never holds more
    keys than the pattern has, and while it is stopped its window is
    empty. *)
Theorem window_never_exceeds_pattern (T : list string) (ops : list Operation) :
  let d := fst (session (new T) ops) in
  secretCode d = T
  ∧ (length (sequence d) ≤ length T)%nat
  ∧ (enabled d = false → sequence d = []).
Proof. apply session_invariant; simpl; [done | lia | done]. Qed.

Lemma feed_stopped d keys :
  enabled d = false → feed d keys = (d, replicate (length keys) []).
Proof.
  intros E. induction keys as [|k ks IH]; [done|].
  cbn [feed]. unfold keydown. rewrite E, IH. done.
Qed.

(** X5.  Nothing survives a [stop]: after any history, a detector that is
    stopped ignores every key; once started again it matches the keys
    that follow exactly as a fresh detector would, whatever had been
    pressed before. *)
Theorem stop_forgets (T : list string) (ops : list Operation) (keys : list string) :
  let d := fst (session (new T) ops) in
  feed (stop d) keys = (stop d, replicate (length keys) [])
  ∧ snd (feed (start (stop d)) keys) = map expectedInvocations (specFires T keys)
  ∧ map fired (snd (feed (start (stop d)) keys)) = fires T keys.
Proof.
  intros d.
  pose proof (session_invariant T ops (new T) eq_refl (Nat.le_0_l _) (fun _ => eq_refl))
    as (HT & _ & Hoff).
  fold d in HT, Hoff.
  assert (enabled (stop d) = false ∧ sequence (stop d) = [] ∧ secretCode (stop d) = T)
    as (E & Hs & HT').
  { unfold stop. destruct (enabled d) eqn:Ed; simpl; auto. }
  split; [by apply feed_stopped|].
  assert (start (stop d) = start (new T)) as ->.
  { unfold start. rewrite E. simpl. by rewrite Hs, HT'. }
  split; [apply feed_started|]. reflexivity.
Qed.

End SecretCodeMore.

Section AppFacts.
Import SecretCode SecretCodeSession.

Lemma feed_app d keys1 keys2 :
  feed d (keys1 ++ keys2)
  = (fst (feed (fst (feed d keys1)) keys2),
     snd (feed d keys1) ++ snd (feed (fst (feed d keys1)) keys2)).
Proof.
  revert d. induction keys1 as [|k ks IH]; intros d; simpl.
  - by destruct (feed d keys2).
  - destruct (keydown d k) as [d1 inv]. rewrite IH.
    destruct (feed d1 ks) as [d2 invs]. simpl.
    by destruct (feed d2 keys2).
Qed.

Lemma reveal_each (invocations : list Invocation) a :
  fold_left (fun a _ => App.revealSecretGame a) invocations a
  = {| App.showSecretGame := App.showSecretGame a || fired invocations;
       App.secretCodeDetector := App.secretCodeDetector a |}.
Proof.
  revert a. induction invocations as [|i l IH]; intros a; simpl.
  - rewrite orb_false_r. by destruct a.
  - rewrite IH. simpl. by rewrite orb_true_r.
Qed.

(** Typing on the page, in terms of the detector alone. *)
Lemma type_spec keys a d :
  App.secretCodeDetector a = Some d →
  App.type a keys
  = {| App.showSecretGame := App.showSecretGame a || existsb fired (snd (feed d keys));
       App.secretCodeDetector := Some (fst (feed d keys)) |}.
Proof.
  revert a d. induction keys as [|k ks IH]; intros a d Hd; simpl.
  - rewrite orb_false_r. destruct a. simpl in Hd. by rewrite Hd.
  - assert (App.keydown a k
            = {| App.showSecretGame := App.showSecretGame a || fired (snd (keydown d k));
                 App.secretCodeDetector := Some (fst (keydown d k)) |}) as ->.
    { unfold App.keydown. rewrite Hd. destruct (keydown d k) as [d1 inv].
      by rewrite reveal_each. }
    erewrite IH by reflexivity. simpl.
    destruct (keydown d k) as [d1 inv]. simpl.
    destruct (feed d1 ks) as [d2 invs]. simpl. by rewrite orb_assoc.
Qed.

Lemma existsb_fired T keys :
  existsb fired (map expectedInvocations (specFires T keys)) = true
  ↔ true ∈ fires T keys.
Proof.
  rewrite fires_specFires. induction (specFires T keys) as [|b l IH]; simpl.
  - split; [done | by intros ?%elem_of_nil].
  - rewrite orb_true_iff, IH, elem_of_cons. destruct b; simpl; intuition congruence.
Qed.

(** Through the listener of the detector alone, the keys set the signal
    if and only if the Konami code occurs among them as ten consecutive
    keys. *)
Lemma type_reveals (keys : list string) :
  App.showSecretGame (App.type (App.onMount App.created) keys) = true
  ↔ occursIn KONAMI_CODE keys.
Proof.
  rewrite (type_spec keys _ setupSecretCodeDetection) by reflexivity. simpl.
  unfold setupSecretCodeDetection. rewrite feed_started, existsb_fired.
  by apply fires_occursIn.
Qed.

(** X7.  Once the page is cleaned up its detector is stopped: no key press
    changes the page any more, so the game is never revealed again. *)
Theorem cleanup_silences_page (a : App.Component) (keys : list string) :
  App.type (App.onCleanup a) keys = App.onCleanup a.
Proof.
  induction keys as [|k ks IH]; [done|]. simpl.
  assert (App.keydown (App.onCleanup a) k = App.onCleanup a) as ->; [|exact IH].
  unfold App.onCleanup, App.keydown.
  destruct (App.secretCodeDetector a) as [d|] eqn:Hd; simpl; [|by rewrite Hd].
  unfold keydown, stop. destruct (enabled d) eqn:E; simpl; by rewrite ?E.
Qed.

(** Through the listener of the detector alone, keys pressed after
    [onClose] set the signal exactly when the callback runs at one of
    them; [onClose] does not reset the detector. *)
Lemma type_after_close (keys1 keys2 : list string) :
  App.showSecretGame
    (App.type (App.onClose (App.type (App.onMount App.created) keys1)) keys2) = true
  ↔ ∃ j, (length keys1 ≤ j)%nat
         ∧ fires KONAMI_CODE (keys1 ++ keys2) !! j = Some true.
Proof.
  rewrite (type_spec keys1 _ setupSecretCodeDetection) by reflexivity.
  erewrite (type_spec keys2) by reflexivity. simpl.
  unfold fires. change (start (new KONAMI_CODE)) with setupSecretCodeDetection.
  rewrite feed_app. simpl. rewrite map_app.
  set (d1 := fst (feed setupSecretCodeDetection keys1)).
  assert (length (map fired (snd (feed setupSecretCodeDetection keys1))) = length keys1)
    as Hl1.
  { rewrite length_map. unfold setupSecretCodeDetection.
    rewrite feed_started, length_map. apply specFires_length. }
  rewrite existsb_exists. split.
  - intros (inv & Hin & Hf). apply list_elem_of_In, list_elem_of_lookup_1 in Hin as [i Hi].
    exists (length keys1 + i)%nat. split; [lia|].
    rewrite lookup_app_r by lia. rewrite Hl1.
    replace (length keys1 + i - length keys1)%nat with i by lia.
    by rewrite list_lookup_fmap, Hi, <- Hf.
  - intros (j & Hj & Hf). rewrite lookup_app_r in Hf by lia. rewrite Hl1 in Hf.
    rewrite list_lookup_fmap in Hf.
    destruct (snd (feed d1 keys2) !! (j - length keys1)%nat) as [inv|] eqn:Hi; [|done].
    exists inv. split; [|by injection Hf].
    apply list_elem_of_In. by eapply list_elem_of_lookup_2.
Qed.

End AppFacts.

(** *** The page with the game on it *)

Section PageFacts.
Import SecretCode SecretCodeSession.

Variable Math_random : nat -> nat -> Q.
Variable Date_now : nat -> nat -> Z.

Lemma App_keydown_spec a key :
  App.keydown a key
  = match App.secretCodeDetector a with
    | Some d =>
        {| App.showSecretGame := App.showSecretGame a || fired (snd (keydown d key));
           App.secretCodeDetector := Some (fst (keydown d key)) |}
    | None => a
    end.
Proof.
  unfold App.keydown. destruct (App.secretCodeDetector a) as [d|]; [|done].
  destruct (keydown d key) as [d1 inv]. by rewrite reveal_each.
Qed.

Lemma App_type_snoc a keys key :
  App.type a (keys ++ [key]) = App.keydown (App.type a keys) key.
Proof. unfold App.type. by rewrite fold_left_app. Qed.

Lemma Page_run_snoc s events e :
  Page.run Math_random Date_now s (events ++ [e])
  = Page.step Math_random Date_now (Page.run Math_random Date_now s events) e.
Proof. unfold Page.run. by rewrite fold_left_app. Qed.

Lemma Page_keys_snoc events e :
  Page.keys (events ++ [e])
  = Page.keys events ++ match e with Page.KeyDown key _ => [key] | _ => [] end.
Proof.
  unfold Page.keys. rewrite flat_map_app. simpl. by rewrite app_nil_r.
Qed.

Lemma mountGame_app area s :
  Page.app (Page.mountGame Math_random Date_now area s) = Page.app s
  ∧ Page.onCloseCount (Page.mountGame Math_random Date_now area s) = Page.onCloseCount s.
Proof.
  unfold Page.mountGame. destruct (Page.game s); [done|].
  by destruct (App.showSecretGame (Page.app s)).
Qed.

Lemma removeGame_app s :
  Page.app (Page.removeGame s) = Page.app s
  ∧ Page.onCloseCount (Page.removeGame s) = Page.onCloseCount s.
Proof.
  unfold Page.removeGame. destruct (Page.game s); [|done].
  by destruct (App.showSecretGame (Page.app s)).
Qed.

(** What one event does to the signal and to the detector: a key does what
    the listener of the detector does, the completion of an exit tween
    calls [onClose], and nothing else touches them. *)
Lemma step_app s e :
  (Page.app (Page.step Math_random Date_now s e)
   = match e with
     | Page.KeyDown key _ => App.keydown (Page.app s) key
     | _ => Page.app s
     end
   ∧ Page.onCloseCount (Page.step Math_random Date_now s e) = Page.onCloseCount s)
  ∨ (Page.app (Page.step Math_random Date_now s e) = App.onClose (Page.app s)
     ∧ Page.onCloseCount (Page.step Math_random Date_now s e) = S (Page.onCloseCount s)
     ∧ Page.keys [e] = []).
Proof.
  destruct e as [key area|e|]; cbn [Page.step].
  - left. unfold Page.keydown.
    destruct (mountGame_app area (Page.withApp (App.keydown (Page.app s) key) s)) as [E1 E2].
    destruct (Page.game s); cbn [Page.withGame Page.app Page.onCloseCount];
      by rewrite E1, E2.
  - destruct (Page.game s) as [w|]; [|by left].
    destruct (Page.fromHost e && Flappy.enabled e w); [|by left].
    destruct (Page.completesExitTween e); [|by left].
    right. unfold Page.onClose.
    match goal with |- context [Page.removeGame ?t] =>
      destruct (removeGame_app t) as [E1 E2] end.
    by rewrite E1, E2.
  - destruct (bool_decide _); [|by left].
    right. unfold Page.onClose.
    match goal with |- context [Page.removeGame ?t] =>
      destruct (removeGame_app t) as [E1 E2] end.
    by rewrite E1, E2.
Qed.

(** The signal and the detector along a run of the page, against what the
    keys alone do through the detector. *)
Lemma run_app s events :
  App.secretCodeDetector (Page.app (Page.run Math_random Date_now s events))
  = App.secretCodeDetector (App.type (Page.app s) (Page.keys events))
  ∧ (App.showSecretGame (Page.app (Page.run Math_random Date_now s events)) = true →
     App.showSecretGame (App.type (Page.app s) (Page.keys events)) = true)
  ∧ (Page.onCloseCount s ≤ Page.onCloseCount (Page.run Math_random Date_now s events))%nat
  ∧ (Page.onCloseCount (Page.run Math_random Date_now s events) = Page.onCloseCount s →
     Page.app (Page.run Math_random Date_now s events)
     = App.type (Page.app s) (Page.keys events)).
Proof.
  induction events as [|e events (IHd & IHs & IHc & IHq)] using rev_ind.
  - by cbn.
  - rewrite Page_run_snoc, Page_keys_snoc.
    set (s' := Page.run Math_random Date_now s events) in *.
    destruct (step_app s' e) as [[Ea Ec] | (Ea & Ec & Ek)]; rewrite Ea, Ec.
    + destruct e as [key area|e|]; rewrite ?app_nil_r; [|done..].
      rewrite App_type_snoc, !App_keydown_spec, <- IHd.
      destruct (App.secretCodeDetector (Page.app s')) as [d|] eqn:Hd.
      * cbn [App.secretCodeDetector App.showSecretGame].
        split; [done|]. split; [|split; [done|]].
        -- rewrite !orb_true_iff. intros [H | H]; auto.
        -- intros Hq. by rewrite IHq.
      * split; [by rewrite Hd|]. split; [done|]. split; [done|]. done.
    + cbn [Page.keys flat_map] in Ek. rewrite app_nil_r in Ek.
      destruct e as [key area|e|]; [done|..]; rewrite app_nil_r;
        (split; [done|]); (split; [done|]); (split; [lia|]); intros Hq; lia.
Qed.

(** The game is on the page exactly when the signal is true. *)
Lemma step_shown s e :
  (App.showSecretGame (Page.app s) = true ↔ is_Some (Page.game s)) →
  App.showSecretGame (Page.app (Page.step Math_random Date_now s e)) = true
  ↔ is_Some (Page.game (Page.step Math_random Date_now s e)).
Proof.
  intros H. destruct e as [key area|e|]; cbn [Page.step].
  - unfold Page.keydown, Page.mountGame. rewrite App_keydown_spec.
    cbn [Page.withApp Page.game Page.app].
    destruct (Page.game s) as [w|] eqn:Hg.
    + cbn [Page.withGame Page.app Page.game].
      assert (App.showSecretGame (Page.app s) = true) as Hs by (apply H; eauto).
      split; [eauto|]. intros _.
      destruct (App.secretCodeDetector (Page.app s)); [|done].
      cbn. by rewrite Hs.
    + assert (App.showSecretGame (Page.app s) = false) as Hs.
      { destruct (App.showSecretGame (Page.app s)); [|done].
        by destruct (proj1 H eq_refl). }
      destruct (App.secretCodeDetector (Page.app s)) as [d|].
      * cbn [App.showSecretGame]. rewrite Hs. cbn [orb].
        destruct (fired (snd (keydown d key))); cbn; rewrite ?Hg; [by eauto|].
        split; [done | by intros [? ?]].
      * rewrite Hs. cbn. rewrite ?Hs, ?Hg. split; [done | by intros [? ?]].
  - destruct (Page.game s) as [w|] eqn:Hg; [|by rewrite Hg].
    destruct (Page.fromHost e && Flappy.enabled e w); [|by rewrite Hg].
    destruct (Page.completesExitTween e).
    + unfold Page.onClose, Page.removeGame. cbn. split; [done | by intros [? ?]].
    + cbn. split; [eauto|]. intros _. apply H. eauto.
  - destruct (bool_decide _); [|done].
    unfold Page.onClose, Page.removeGame. cbn.
    destruct (Page.game s); cbn; (split; [done | by intros [? ?]]).
Qed.

Lemma run_shown events :
  App.showSecretGame
    (Page.app (Page.run Math_random Date_now (Page.onMount Page.created) events)) = true
  ↔ is_Some (Page.game (Page.run Math_random Date_now (Page.onMount Page.created) events)).
Proof.
  induction events as [|e events IH] using rev_ind.
  - cbn. split; [done | by intros [? ?]].
  - rewrite Page_run_snoc. by apply step_shown.
Qed.

Lemma type_detector keys :
  App.secretCodeDetector (App.type (App.onMount App.created) keys)
  = Some (fst (feed setupSecretCodeDetection keys)).
Proof. by rewrite (type_spec keys _ setupSecretCodeDetection). Qed.

(** X6.  On the page, whatever the game on it does with the keys and
    whatever else happens, the detector hears every key: after any events
    its state is the one that the keys pressed so far give a detector set
    up for the Konami code.  The game is on the page exactly when the
    signal [showSecretGame] is true; then the Konami code occurs among the
    keys pressed so far as ten consecutive keys; and as long as no exit
    tween has completed (no call of [onClose]), the game is shown as soon
    as the code has occurred. *)
Theorem konami_reveals_game (events : list Page.Event) :
  let s := Page.run Math_random Date_now (Page.onMount Page.created) events in
  App.secretCodeDetector (Page.app s)
  = Some (fst (feed setupSecretCodeDetection (Page.keys events)))
  ∧ (App.showSecretGame (Page.app s) = true ↔ is_Some (Page.game s))
  ∧ (App.showSecretGame (Page.app s) = true → occursIn KONAMI_CODE (Page.keys events))
  ∧ (Page.onCloseCount s = 0%nat → occursIn KONAMI_CODE (Page.keys events) →
     App.showSecretGame (Page.app s) = true).
Proof.
  intros s. subst s.
  destruct (run_app (Page.onMount Page.created) events) as (Hd & Hs & _ & Hq).
  change (Page.app (Page.onMount Page.created)) with (App.onMount App.created) in *.
  split; [by rewrite Hd, type_detector|]. split; [apply run_shown|]. split.
  - intros H. by apply type_reveals, Hs.
  - intros H0 Hocc. rewrite Hq by (by rewrite H0). by apply type_reveals.
Qed.

(** X8.  Every call of [onClose], made when an exit tween completes,
    leaves the game hidden and off the page, whichever instance had
    started the tween.  While the game is hidden (before the first reveal,
    or after such a call), it is shown again exactly when the callback of
    the detector runs at a key pressed from then on, as long as no exit
    tween completes in the meantime; keys pressed before still count
    towards that match, for neither the game nor its close resets the
    detector. *)
Theorem game_reappears_on_later_firing (events1 events2 : list Page.Event) :
  let s1 := Page.run Math_random Date_now (Page.onMount Page.created) events1 in
  let s2 := Page.run Math_random Date_now s1 events2 in
  (∀ e, Page.onCloseCount (Page.step Math_random Date_now s1 e) ≠ Page.onCloseCount s1 →
        App.showSecretGame (Page.app (Page.step Math_random Date_now s1 e)) = false
        ∧ Page.game (Page.step Math_random Date_now s1 e) = None)
  ∧ (App.showSecretGame (Page.app s1) = false →
     Page.onCloseCount s2 = Page.onCloseCount s1 →
     App.showSecretGame (Page.app s2) = true
     ↔ ∃ j, (length (Page.keys events1) ≤ j)%nat
            ∧ fires KONAMI_CODE (Page.keys events1 ++ Page.keys events2) !! j = Some true).
Proof.
  intros s1 s2. split.
  { intros e Hc. destruct (step_app s1 e) as [[_ Ec] | (Ea & _ & _)]; [done|].
    assert (App.showSecretGame (Page.app (Page.step Math_random Date_now s1 e)) = false)
      as Hs by (by rewrite Ea).
    split; [done|].
    pose proof (run_shown (events1 ++ [e])) as Hg. rewrite Page_run_snoc in Hg.
    fold s1 in Hg. rewrite Hs in Hg.
    destruct (Page.game (Page.step Math_random Date_now s1 e)); [|done].
    assert (false = true) as Hf by (apply Hg; eauto). discriminate Hf. }
  intros Hhidden Hq. subst s2.
  destruct (run_app s1 events2) as (_ & _ & _ & E). rewrite (E Hq).
  destruct (run_app (Page.onMount Page.created) events1) as (Hd & _ & _ & _).
  fold s1 in Hd.
  change (Page.app (Page.onMount Page.created)) with (App.onMount App.created) in Hd.
  assert (Page.app s1
          = App.onClose (App.type (App.onMount App.created) (Page.keys events1))) as ->.
  { destruct (Page.app s1) as [sh det]. cbn in Hhidden, Hd. subst sh det.
    unfold App.onClose. reflexivity. }
  apply type_after_close.
Qed.

End PageFacts.


(* ===================================================================== *)
(** ** More on the game                                                   *)
(* ===================================================================== *)

Section ControlFacts.
Import Flappy FlappyLedger.
Local Open Scope Q_scope.

Lemma handleControls_up w :
  gameActive (signals w) = true →
  handleControls "ArrowUp" w
  = setPlayerPosition (fun prev => {| y := Qmax 0 (y prev - 5) |}) w.
Proof. intros Ha. unfold handleControls. rewrite Ha. reflexivity. Qed.

Lemma handleControls_down w :
  gameActive (signals w) = true →
  handleControls "ArrowDown" w
  = setPlayerPosition (fun prev => {| y := Qmin 90 (y prev + 5) |}) w.
Proof. intros Ha. unfold handleControls. rewrite Ha. reflexivity. Qed.

(** X20.  On an active game with the player within [0, 90]: the up key
    followed by the down key brings the player back exactly when it was at
    5 or more (nearer the top the up key is cut at 0), the down key
    followed by the up key exactly when it was at 85 or less; the space bar
    does what the up key does, and a key other than the arrows, the space
    bar and Escape changes nothing. *)
Theorem up_and_down_cancel_away_from_edges (w : World) :
  gameActive (signals w) = true →
  0 <= y (playerPosition (signals w)) <= 90 →
  (y (playerPosition (signals (handleControls "ArrowDown" (handleControls "ArrowUp" w))))
     == y (playerPosition (signals w))
   ↔ 5 <= y (playerPosition (signals w)))
  ∧ (y (playerPosition (signals (handleControls "ArrowUp" (handleControls "ArrowDown" w))))
       == y (playerPosition (signals w))
     ↔ y (playerPosition (signals w)) <= 85)
  ∧ handleControls " " w = handleControls "ArrowUp" w
  ∧ (∀ key, key ∉ ["ArrowUp"; " "; "ArrowDown"; "Escape"] → handleControls key w = w).
Proof.
  intros Ha [H0 H90].
  rewrite (handleControls_up w Ha), (handleControls_down w Ha).
  rewrite handleControls_down, handleControls_up by done.
  cbn [setPlayerPosition withSignals signals playerPosition y].
  set (y0 := y (playerPosition (signals w))) in *.
  split; [|split; [|split]].
  - destruct (Q.max_spec 0 (y0 - 5)) as [[? E1] | [? E1]];
      destruct (Q.min_spec 90 (Qmax 0 (y0 - 5) + 5)) as [[? E2] | [? E2]];
      rewrite E2; rewrite E1 in *; split; intros; lra.
  - destruct (Q.min_spec 90 (y0 + 5)) as [[? E1] | [? E1]];
      destruct (Q.max_spec 0 (Qmin 90 (y0 + 5) - 5)) as [[? E2] | [? E2]];
      rewrite E2; rewrite E1 in *; split; intros; lra.
  - unfold handleControls. rewrite Ha. reflexivity.
  - intros key Hk. unfold handleControls. rewrite Ha. cbn [negb].
    rewrite !bool_decide_eq_false_2; [done|..]; intros ->; apply Hk;
      rewrite !elem_of_cons; auto 10.
Qed.

End ControlFacts.

Section RenderFacts.
Import Flappy FlappyLedger.
Local Open Scope Q_scope.

(** Looking an id up among the rendered barriers finds the barrier of the
    first obstacle that carries the id, and nothing when none does. *)
Lemma getElementById_render layout obs z :
  getElementById (map (fun p => (fst p, layout (snd p))) (render obs)) (obs_top z)
  = (fun o => layout (topStyle o)) <$> List.find (fun o => bool_decide (id o = z)) obs
  ∧ getElementById (map (fun p => (fst p, layout (snd p))) (render obs)) (obs_bottom z)
    = (fun o => layout (bottomStyle o)) <$> List.find (fun o => bool_decide (id o = z)) obs.
Proof.
  induction obs as [|a obs [IHt IHb]]; [done|].
  cbn [render flat_map renderObstacle app map getElementById fst snd List.find].
  destruct (decide (id a = z)) as [E|E].
  - rewrite (bool_decide_eq_true_2 (id a = z)) by done.
    rewrite (bool_decide_eq_true_2 (obs_top (id a) = obs_top z)) by congruence.
    rewrite (bool_decide_eq_false_2 (obs_top (id a) = obs_bottom z)) by done.
    rewrite (bool_decide_eq_true_2 (obs_bottom (id a) = obs_bottom z)) by congruence.
    done.
  - rewrite (bool_decide_eq_false_2 (id a = z)) by done.
    rewrite (bool_decide_eq_false_2 (obs_top (id a) = obs_top z)) by congruence.
    rewrite (bool_decide_eq_false_2 (obs_bottom (id a) = obs_top z)) by done.
    rewrite (bool_decide_eq_false_2 (obs_top (id a) = obs_bottom z)) by done.
    rewrite (bool_decide_eq_false_2 (obs_bottom (id a) = obs_bottom z)) by congruence.
    done.
Qed.

(** X18.  [document.getElementById] on the ids that the render gives the
    barriers: for every number, the lookup of its top (bottom) id finds the
    top (bottom) barrier of the first live obstacle carrying that number as
    id, laid out from that obstacle's [x], [height] and [gapSize]; it finds
    nothing when no live obstacle carries the number or when the component
    is not on the page. *)
Theorem lookup_finds_first_obstacle (layout : Style → DOMRect.t) (w : World) (z : Z) :
  let first := List.find (fun o => bool_decide (id o = z)) (obstacles (signals w)) in
  getElementById (document layout w) (obs_top z)
  = (if mounted w then (fun o => layout (topStyle o)) <$> first else None)
  ∧ getElementById (document layout w) (obs_bottom z)
    = (if mounted w then (fun o => layout (bottomStyle o)) <$> first else None).
Proof.
  intros first. subst first. unfold document. destruct (mounted w); [|done].
  apply getElementById_render.
Qed.

(** The test of [detectCollisions] on an obstacle whose ids lead to its
    own barriers is the test on these two barriers alone. *)
Lemma hitsObstacle_own player layout doc o :
  getElementById doc (obs_top (id o)) = Some (layout (topStyle o)) →
  getElementById doc (obs_bottom (id o)) = Some (layout (bottomStyle o)) →
  hitsObstacle player doc o = hitsObstacle player (ownBarriers layout o) o.
Proof.
  intros Ht Hb. unfold hitsObstacle. rewrite Ht, Hb.
  unfold ownBarriers. cbn [renderObstacle map getElementById fst snd].
  rewrite (bool_decide_eq_true_2 (obs_top (id o) = obs_top (id o))) by done.
  rewrite (bool_decide_eq_false_2 (obs_top (id o) = obs_bottom (id o))) by done.
  rewrite (bool_decide_eq_true_2 (obs_bottom (id o) = obs_bottom (id o))) by done.
  done.
Qed.

End RenderFacts.

Section FlappyMore.
Import Flappy FlappyLedger.
Local Open Scope Q_scope.

Variable Math_random : nat -> Q.
Variable Date_now : nat -> Z.

Lemma occurrences_app kind t1 t2 :
  occurrences kind (t1 ++ t2) = (occurrences kind t1 + occurrences kind t2)%nat.
Proof. unfold occurrences. by rewrite List.filter_app, length_app. Qed.

Lemma occurrences_collisions hits :
  occurrences isCollision (map Collision hits) = length hits
  ∧ occurrences isInitGame (map Collision hits) = 0%nat
  ∧ occurrences isCloseGame (map Collision hits) = 0%nat
  ∧ occurrences isTick (map Collision hits) = 0%nat
  ∧ countOnClose (map Collision hits) = 0%nat.
Proof.
  unfold occurrences. induction hits as [|o hits (H1 & H2 & H3 & H4 & H5)]; [done|].
  simpl. rewrite H1. auto.
Qed.

Lemma initGame_mounted rect w :
  refs w = allRefs →
  initGame Math_random Date_now rect w = freshRun Math_random rect w.
Proof.
  intros Hr. unfold initGame. rewrite Hr.
  cbn [allRefs gameRef playerRef gameAreaRef negb orb].
  rewrite !createObstacle_eq. reflexivity.
Qed.

(** A frame on an active game, as one record: the tick is traced, the
    player falls, the obstacle pass runs, one crash tween is started for
    each obstacle hit, and the next frame is requested. *)
Lemma updateGame_shape player layout w :
  gameActive (signals w) = true →
  let w0 := setPlayerPosition (fun prev => {| y := Qmin 90 (y prev + 0.5) |}) (emit Tick w) in
  let mo := moveObstacles Math_random Date_now (obstacles (signals w)) w0 in
  ∃ hits sc rc nc,
    snd mo = withCounters sc rc nc w0
    ∧ updateGame Math_random Date_now player layout w
      = requestAnimationFrame
          (addCollisions hits (setObstacles (fst mo) (withCounters sc rc nc w0))).
Proof.
  intros Ha w0 mo. rewrite (updateGame_active Math_random Date_now player layout w Ha).
  fold w0. fold mo.
  destruct (moveObstacles_counters Math_random Date_now (obstacles (signals w)) w0)
    as (sc & rc & nc & E). fold mo in E.
  rewrite detectCollisions_eq. rewrite E.
  destruct (_ || _).
  - exists [], sc, rc, nc. split; [done|]. by rewrite addCollisions_nil.
  - eexists _, sc, rc, nc. split; [done|]. reflexivity.
Qed.

Lemma step_disabled w e :
  enabled e w = false → step Math_random Date_now w e = w.
Proof. intros En. unfold step. by rewrite En. Qed.

Lemma step_enabled w e :
  enabled e w = true →
  step Math_random Date_now w e =
    match e with
    | Mount area => mount Math_random Date_now area w
    | KeyDown key => handleControls key w
    | ClickClose => closeGame w
    | AnimationFrame player layout =>
        updateGame Math_random Date_now player layout (withPending takeFrame w)
    | CrashTweenComplete => crashTweenComplete (withPending takeCrashTween w)
    | RestartTimeout area =>
        restartTimeout Math_random Date_now area (withPending takeRestartTimeout w)
    | CloseTweenComplete => onClose (withPending takeCloseTween w)
    end.
Proof. intros En. unfold step. by rewrite En. Qed.

(** What a key press does: nothing, a move of the player, or [closeGame]. *)
Lemma handleControls_cases key w :
  handleControls key w = w
  ∨ (∃ f, handleControls key w = setPlayerPosition f w)
  ∨ handleControls key w = closeGame w.
Proof.
  unfold handleControls. destruct (negb _); [by left|].
  destruct (_ || _); [right; left; eauto|].
  destruct (bool_decide (key = "ArrowDown")); [right; left; eauto|].
  destruct (bool_decide (key = "Escape")); auto.
Qed.

Lemma mount_created area :
  mount Math_random Date_now area created
  = freshRun Math_random area
      {| signals := {| score := 0; playerPosition := {| y := 50 |}; obstacles := [];
                       gameActive := false; gameWidth := DOMRect.width area;
                       gameHeight := DOMRect.height area |};
         refs := allRefs; mounted := true; listening := true;
         pending := pending created; randomCalls := 0; nowCalls := 0; trace := [] |}.
Proof. unfold mount. cbn -[initGame]. by rewrite initGame_mounted. Qed.

(** Unfolds the ledger of a world built from [w] and compares the counts. *)
Ltac ledger :=
  unfold Settled, freshRun, onCloseCalls in *; cbn -[occurrences];
  rewrite ?occurrences_app, ?countOnClose_app;
  unfold occurrences in *; cbn;
  repeat split; try done; try lia.

Lemma closeGame_settled w : Settled w → Settled (closeGame w).
Proof. intros (Hr & Hl & Hs & Hc & Hk). unfold closeGame. ledger. Qed.

Lemma updateGame_settled player layout w :
  Settled w → gameActive (signals w) = true →
  Settled (updateGame Math_random Date_now player layout w).
Proof.
  intros (Hr & Hl & Hs & Hc & Hk) Ha.
  destruct (updateGame_shape player layout w Ha) as (hits & sc & rc & nc & E & ->).
  pose proof (moveObstacles_length Math_random Date_now (obstacles (signals w))
                (setPlayerPosition (fun prev => {| y := Qmin 90 (y prev + 0.5) |})
                   (emit Tick w))) as Hlen.
  pose proof (moveObstacles_score Math_random Date_now (obstacles (signals w))
                (setPlayerPosition (fun prev => {| y := Qmin 90 (y prev + 0.5) |})
                   (emit Tick w))) as Hsc.
  rewrite E in Hsc. cbn in Hsc.
  destruct (occurrences_collisions hits) as (O1 & O2 & O3 & _ & O5).
  unfold Settled, onCloseCalls in *. cbn -[occurrences].
  rewrite !occurrences_app, !countOnClose_app, O1, O2, O3, O5.
  unfold occurrences in *. cbn.
  repeat split; [done | by rewrite Hlen | lia | lia | lia].
Qed.

(** Every event keeps the world settled; the mount settles it. *)
Lemma step_settled w e :
  w = created ∨ Settled w →
  step Math_random Date_now w e = created ∨ Settled (step Math_random Date_now w e).
Proof.
  intros Hw. destruct (enabled e w) eqn:En; [|by rewrite step_disabled].
  rewrite step_enabled by done. right. destruct Hw as [-> | Hw].
  - destruct e; try discriminate En. rewrite mount_created. ledger.
  - pose proof Hw as (Hr & Hl & Hs & Hc & Hk).
    destruct e as [area|key| |player layout| |area| ]; cbn in En.
    + by rewrite Hr in En.
    + destruct (handleControls_cases key w) as [-> | [[f ->] | ->]];
        [done | done | by apply closeGame_settled].
    + by apply closeGame_settled.
    + apply bool_decide_eq_true in En. destruct (gameActive (signals w)) eqn:Ha.
      * apply updateGame_settled; [|done]. ledger.
      * unfold updateGame. cbn [withPending signals]. rewrite Ha. cbn [negb]. ledger.
    + apply bool_decide_eq_true in En. unfold crashTweenComplete. ledger.
    + apply bool_decide_eq_true in En.
      unfold restartTimeout. cbn [withPending refs]. rewrite Hr. cbn [allRefs gameRef].
      rewrite initGame_mounted by done. ledger.
    + apply bool_decide_eq_true in En.
      unfold onClose. cbn [emit withPending mounted]. destruct (mounted w); ledger.
Qed.

Lemma run_settled events :
  run Math_random Date_now created events = created
  ∨ Settled (run Math_random Date_now created events).
Proof.
  apply (run_invariant Math_random Date_now (fun w => w = created ∨ Settled w)).
  - by left.
  - intros w e. apply step_settled.
Qed.

Lemma created_or_mounted w :
  w = created ∨ Settled w → gameRef (refs w) = false → w = created.
Proof. intros [-> | (Hr & _)] H; [done|]. by rewrite Hr in H. Qed.

(** X9.  Along every run the game has no obstacle before it is mounted and
    exactly three from then on: neither frames, recycles, crashes, restarts
    nor the close change their number. *)
Theorem three_obstacles_once_mounted (events : list Event) :
  let w := run Math_random Date_now created events in
  length (obstacles (signals w)) = if gameRef (refs w) then 3%nat else 0%nat.
Proof.
  intros w. subst w. destruct (run_settled events) as [E | (Hr & Hl & _)].
  - by rewrite E.
  - by rewrite Hr.
Qed.

Lemma countLeft_le l : (countLeft l ≤ length l)%nat.
Proof.
  induction l as [|o l IH]; [done|]. rewrite countLeft_cons. simpl.
  destruct (Qltb (x o) (-50)); lia.
Qed.

(** X10.  Along every run the score is never negative, and one event
    either leaves it as it is, resets it to 0 ([initGame]), or raises it by
    at most 3, the number of obstacles (a frame that recycles). *)
Theorem score_never_negative (events : list Event) (e : Event) :
  let w := run Math_random Date_now created events in
  let w' := step Math_random Date_now w e in
  (0 <= score (signals w))%Z
  ∧ (score (signals w') = 0%Z
     ∨ (score (signals w) <= score (signals w') <= score (signals w) + 3)%Z).
Proof.
  intros w w'.
  assert (0 <= score (signals w))%Z as H0.
  { subst w. destruct (run_settled events) as [E | (_ & _ & H & _)]; [by rewrite E | done]. }
  assert (length (obstacles (signals w)) ≤ 3)%nat as Hl.
  { subst w. destruct (run_settled events) as [E | (_ & H & _)]; [rewrite E; simpl; lia | lia]. }
  split; [done|]. subst w'.
  destruct (step_change Math_random Date_now w e)
    as [_ _ -> | ? _ _ _ -> | ? ? _ _ _ -> | w0 _ _ _ -> Hw0]; [right; lia | right; lia | by left |].
  right. rewrite moveObstacles_score, Hw0.
  pose proof (countLeft_le (map moveLeft (obstacles (signals w)))) as Hc.
  rewrite length_map in Hc. lia.
Qed.

(** X11.  Along every run, each call of [closeGame] (Escape on an active
    game, or a click on the close button) is answered by exactly one call
    of the host's close callback, made when its exit tween completes: the
    calls of [closeGame] made so far are as many as the exit tweens still
    running plus the calls of the callback already made. *)
Theorem each_close_is_answered_once (events : list Event) :
  let w := run Math_random Date_now created events in
  occurrences isCloseGame (trace w) = (closeTweens (pending w) + onCloseCalls w)%nat.
Proof.
  intros w. subst w. destruct (run_settled events) as [E | (_ & _ & _ & H & _)]; [|done].
  by rewrite E.
Qed.

(** X12.  Along every run, each collision reported by [detectCollisions]
    leads to one run of [initGame]: the collisions reported so far, plus
    one for the mount, are as many as the crash tweens still running plus
    the restart timers still pending plus the runs of [initGame] already
    made.  A crash whose frames report [k] collisions thus restarts the
    game [k] times. *)
Theorem each_collision_restarts_once (events : list Event) :
  let w := run Math_random Date_now created events in
  (occurrences isCollision (trace w) + (if gameRef (refs w) then 1 else 0))%nat
  = (crashTweens (pending w) + restartTimeouts (pending w)
     + occurrences isInitGame (trace w))%nat.
Proof.
  intros w. subst w. destruct (run_settled events) as [E | (Hr & _ & _ & _ & H)].
  - by rewrite E.
  - rewrite Hr. simpl. lia.
Qed.

(** X13.  In every world reached by a run, a restart timer that fires
    starts a fresh run: the score is 0, the player is at 50, the game is
    active, the obstacles are three with ids 1, 2, 3 at the width of the
    game area plus 50, 200 and 350, and one more frame is requested. *)
Theorem restart_starts_fresh_run (events : list Event) (area : DOMRect.t) :
  let w := run Math_random Date_now created events in
  let w' := step Math_random Date_now w (RestartTimeout area) in
  enabled (RestartTimeout area) w = true →
  score (signals w') = 0%Z
  ∧ playerPosition (signals w') = {| y := 50 |}
  ∧ gameActive (signals w') = true
  ∧ map id (obstacles (signals w')) = [1; 2; 3]%Z
  ∧ map x (obstacles (signals w'))
    = [DOMRect.width area + 50; DOMRect.width area + 200; DOMRect.width area + 350]
  ∧ animationFrames (pending w') = S (animationFrames (pending w))
  ∧ restartTimeouts (pending w') = pred (restartTimeouts (pending w)).
Proof.
  intros w w' En. subst w' w. rewrite step_enabled by done.
  destruct (run_settled events) as [E | (Hr & _)].
  - rewrite E in En. discriminate En.
  - unfold restartTimeout. cbn [withPending refs]. rewrite Hr.
    cbn [allRefs gameRef]. rewrite initGame_mounted by done. by cbn.
Qed.

(** *** Frames on an active game *)

Lemma half_succ n : (Z.of_nat (S n) # 2) == (Z.of_nat n # 2) + 0.5.
Proof. unfold Qeq, Qplus. cbn [Qnum Qden]. lia. Qed.

Lemma half_nonneg n : 0 <= (Z.of_nat n # 2).
Proof. unfold Qle. cbn [Qnum Qden]. lia. Qed.

Lemma fall_closed_form y0 n :
  Qmin 90 (Qmin 90 (y0 + 0.5) + (Z.of_nat n # 2)) == Qmin 90 (y0 + (Z.of_nat (S n) # 2)).
Proof.
  rewrite half_succ. pose proof (half_nonneg n) as Hn.
  destruct (Q.min_spec 90 (y0 + 0.5)) as [[? ->] | [? ->]];
    destruct (Q.min_spec 90 (90 + (Z.of_nat n # 2))) as [[? E1] | [? E1]];
    destruct (Q.min_spec 90 (y0 + 0.5 + (Z.of_nat n # 2))) as [[? E2] | [? E2]];
    destruct (Q.min_spec 90 (y0 + ((Z.of_nat n # 2) + 0.5))) as [[? E3] | [? E3]];
    rewrite ?E1, ?E2, ?E3; lra.
Qed.

(** One frame delivered to an active game. *)
Lemma frame_on_active player layout w :
  gameActive (signals w) = true →
  (0 < animationFrames (pending w))%nat →
  let w' := step Math_random Date_now w (AnimationFrame player layout) in
  gameActive (signals w') = true
  ∧ animationFrames (pending w') = animationFrames (pending w)
  ∧ playerPosition (signals w') = {| y := Qmin 90 (y (playerPosition (signals w)) + 0.5) |}
  ∧ occurrences isTick (trace w') = S (occurrences isTick (trace w)).
Proof.
  intros Ha Hf w'. subst w'.
  rewrite step_enabled by (by apply bool_decide_eq_true_2).
  assert (gameActive (signals (withPending takeFrame w)) = true) as Ha' by done.
  destruct (updateGame_shape player layout _ Ha') as (hits & sc & rc & nc & _ & ->).
  destruct (occurrences_collisions hits) as (_ & _ & _ & O4 & _).
  cbn -[occurrences]. rewrite !occurrences_app, O4.
  repeat split; [done | lia | unfold occurrences; simpl; lia].
Qed.

(** X15.  On an active game with a frame pending, [n] frames in a row
    leave the game active with a frame pending, whatever collisions they
    find; the player has fallen by half a unit per frame, down to 90 at
    most, and [updateGame] has passed its guard [n] more times. *)
Theorem frames_keep_active_game_falling (w : World) (frames : list Event) :
  Forall isFrame frames →
  gameActive (signals w) = true →
  (0 < animationFrames (pending w))%nat →
  y (playerPosition (signals w)) <= 90 →
  let w' := run Math_random Date_now w frames in
  gameActive (signals w') = true
  ∧ animationFrames (pending w') = animationFrames (pending w)
  ∧ y (playerPosition (signals w'))
    == Qmin 90 (y (playerPosition (signals w)) + (Z.of_nat (length frames) # 2))
  ∧ occurrences isTick (trace w')
    = (occurrences isTick (trace w) + length frames)%nat.
Proof.
  intros Hfr. revert w. induction Hfr as [|e frames He _ IH]; intros w Ha Hf Hy.
  - cbn [run fold_left length Z.of_nat].
    split; [done|]. split; [done|]. split; [|lia].
    destruct (Q.min_spec 90 (y (playerPosition (signals w)) + (0 # 2))) as [[? ->] | [? ->]];
      lra.
  - destruct e as [| | |player layout| | |]; try done.
    destruct (frame_on_active player layout w Ha Hf) as (Ha1 & Hf1 & Hy1 & Ht1).
    change (run Math_random Date_now w (AnimationFrame player layout :: frames))
      with (run Math_random Date_now
              (step Math_random Date_now w (AnimationFrame player layout)) frames).
    specialize (IH (step Math_random Date_now w (AnimationFrame player layout))).
    rewrite Hf1, Hy1, Ht1 in IH. cbn [y] in IH.
    destruct IH as (IH1 & IH2 & IH3 & IH4); [done | done | apply Q.le_min_l |].
    split; [done|]. split; [done|]. split; [|cbn [length]; lia].
    rewrite IH3. cbn [length]. apply fall_closed_form.
Qed.

(** *** Frames and keys on an inactive game *)

Lemma step_inactive w e :
  isFrameOrKey e →
  gameActive (signals w) = false →
  let w' := step Math_random Date_now w e in
  signals w' = signals w ∧ trace w' = trace w
  ∧ animationFrames (pending w') = (animationFrames (pending w) - frameCount [e])%nat
  ∧ crashTweens (pending w') = crashTweens (pending w)
  ∧ restartTimeouts (pending w') = restartTimeouts (pending w)
  ∧ closeTweens (pending w') = closeTweens (pending w).
Proof.
  intros He Ha w'. subst w'. destruct (enabled e w) eqn:En.
  - rewrite step_enabled by done. destruct e as [|key| |player layout| | |]; try done.
    + unfold handleControls. rewrite Ha. cbn. repeat split; lia.
    + unfold updateGame. cbn [withPending signals]. rewrite Ha. cbn. repeat split; lia.
  - rewrite step_disabled by done. destruct e as [|key| |player layout| | |]; try done.
    + cbn. repeat split; lia.
    + cbn in En. apply bool_decide_eq_false in En. cbn. repeat split; lia.
Qed.

Lemma frameCount_cons e events :
  frameCount (e :: events) = (frameCount [e] + frameCount events)%nat.
Proof. unfold frameCount. cbn. by destruct e. Qed.

(** X16.  A game that is not active (crashed, or closing) ignores frames
    and key presses: whatever their number and order, the signals and the
    trace stay as they are, no tween or timer is started, and each frame
    delivered only uses up one pending frame without requesting another. *)
Theorem inactive_game_ignores_frames_and_keys (w : World) (events : list Event) :
  Forall isFrameOrKey events →
  gameActive (signals w) = false →
  let w' := run Math_random Date_now w events in
  signals w' = signals w ∧ trace w' = trace w
  ∧ animationFrames (pending w') = (animationFrames (pending w) - frameCount events)%nat
  ∧ crashTweens (pending w') = crashTweens (pending w)
  ∧ restartTimeouts (pending w') = restartTimeouts (pending w)
  ∧ closeTweens (pending w') = closeTweens (pending w).
Proof.
  intros Hev. revert w. induction Hev as [|e events He _ IH]; intros w Ha.
  - cbn. repeat split; lia.
  - destruct (step_inactive w e He Ha) as (H1 & H2 & H3 & H4 & H5 & H6).
    change (run Math_random Date_now w (e :: events))
      with (run Math_random Date_now (step Math_random Date_now w e) events).
    specialize (IH (step Math_random Date_now w e)).
    rewrite H1, H2, H3, H4, H5, H6 in IH. rewrite frameCount_cons.
    destruct IH as (I1 & I2 & I3 & I4 & I5 & I6); [done|].
    repeat split; try done. lia.
Qed.

(** *** The keydown subscription *)

Lemma occurrences_cleanup_collisions hits :
  occurrences isCleanup (map Collision hits) = 0%nat.
Proof. unfold occurrences. by induction hits. Qed.

(** Once mounted, the handler is subscribed exactly while the component
    is on the page, and the cleanup has run once if the page has removed
    it and not at all otherwise. *)
Lemma step_subscribed w e :
  w = created
  ∨ (refs w = allRefs ∧ listening w = mounted w
     ∧ occurrences isCleanup (trace w) = if mounted w then 0%nat else 1%nat) →
  let w' := step Math_random Date_now w e in
  w' = created
  ∨ (refs w' = allRefs ∧ listening w' = mounted w'
     ∧ occurrences isCleanup (trace w') = if mounted w' then 0%nat else 1%nat).
Proof.
  intros Hw w'. subst w'. destruct (enabled e w) eqn:En; [|by rewrite step_disabled].
  rewrite step_enabled by done. right. destruct Hw as [-> | (Hr & Hl & Hc)].
  - destruct e; try discriminate En. by rewrite mount_created.
  - destruct e as [area|key| |player layout| |area| ]; cbn in En.
    + by rewrite Hr in En.
    + destruct (handleControls_cases key w) as [-> | [[f ->] | ->]]; [done | done |].
      cbn -[occurrences]. rewrite occurrences_app. unfold occurrences in *. cbn.
      rewrite Hc. split; [done|]. split; [done|]. destruct (mounted w); lia.
    + cbn -[occurrences]. rewrite occurrences_app. unfold occurrences in *. cbn.
      rewrite Hc. split; [done|]. split; [done|]. destruct (mounted w); lia.
    + destruct (gameActive (signals w)) eqn:Ha.
      * assert (gameActive (signals (withPending takeFrame w)) = true) as Ha' by done.
        destruct (updateGame_shape player layout _ Ha') as (hits & sc & rc & nc & _ & ->).
        cbn -[occurrences]. rewrite !occurrences_app, occurrences_cleanup_collisions.
        unfold occurrences in *. cbn.
        rewrite Hc. split; [done|]. split; [done|]. destruct (mounted w); lia.
      * unfold updateGame. cbn [withPending signals]. rewrite Ha. by cbn.
    + done.
    + unfold restartTimeout. cbn [withPending refs]. rewrite Hr. cbn [allRefs gameRef].
      rewrite initGame_mounted by done.
      cbn -[occurrences]. rewrite occurrences_app. unfold occurrences in *. cbn.
      rewrite Hc. split; [done|]. split; [done|]. destruct (mounted w); lia.
    + unfold onClose. cbn [emit withPending mounted]. destruct (mounted w) eqn:Hm.
      * cbn -[occurrences]. rewrite !occurrences_app. unfold occurrences in *. cbn.
        rewrite Hc. split; [done|]. split; [done|]. lia.
      * cbn -[occurrences]. rewrite !occurrences_app. unfold occurrences in *. cbn.
        rewrite Hc, Hm. split; [done|]. split; [done|]. lia.
Qed.

(** X17.  Along every run the keydown handler is subscribed exactly while
    the component is on the page, [onCleanup] runs once when the page
    removes the component and at no other time, and from then on no key
    press and no click on the close button reaches the component. *)
Theorem subscribed_while_on_page (events : list Event) (key : string) :
  let w := run Math_random Date_now created events in
  listening w = mounted w
  ∧ occurrences isCleanup (trace w) = (if removed w then 1%nat else 0%nat)
  ∧ (removed w = true →
     step Math_random Date_now w (KeyDown key) = w
     ∧ step Math_random Date_now w ClickClose = w
     ∧ removed (step Math_random Date_now w (KeyDown key)) = true).
Proof.
  intros w. subst w.
  assert (run Math_random Date_now created events = created
          ∨ (refs (run Math_random Date_now created events) = allRefs
             ∧ listening (run Math_random Date_now created events)
               = mounted (run Math_random Date_now created events)
             ∧ occurrences isCleanup (trace (run Math_random Date_now created events))
               = if mounted (run Math_random Date_now created events)
                 then 0%nat else 1%nat)) as [-> | (Hr & Hl & Hc)].
  { apply (run_invariant Math_random Date_now
             (fun w => w = created
                       ∨ (refs w = allRefs ∧ listening w = mounted w
                          ∧ occurrences isCleanup (trace w)
                            = if mounted w then 0%nat else 1%nat))).
    - by left.
    - intros w e. apply step_subscribed. }
  - done.
  - unfold removed. rewrite Hr. cbn [allRefs gameRef andb].
    split; [done|]. split; [rewrite Hc; by destruct (mounted _)|].
    intros Hm. apply negb_true_iff in Hm.
    rewrite !step_disabled by (cbn; congruence).
    rewrite Hr, Hm. done.
Qed.

(** *** Ids under an advancing clock *)

Lemma foldl_recycleAt_state_invariant (P : list Obstacle * World → Prop) js st :
  P st →
  (∀ i st, P st → P (recycleAt Math_random Date_now i st)) →
  P (foldl (fun st j => recycleAt Math_random Date_now j st) st js).
Proof.
  intros H0 Hstep. revert st H0. induction js as [|j js IH]; intros st H0; [done|].
  cbn [foldl]. apply IH. by apply Hstep.
Qed.

Lemma seeds_ids width rc n :
  distinctKnownIds Date_now n (seeds Math_random width rc).
Proof.
  split.
  - apply (bool_decide_unpack _). by vm_compute.
  - intros o Ho. left. unfold seeds in Ho.
    repeat (apply elem_of_cons in Ho as [-> | Ho]; [simpl; lia|]).
    by apply elem_of_nil in Ho.
Qed.

Lemma moveLeft_ids n l :
  distinctKnownIds Date_now n l → distinctKnownIds Date_now n (map moveLeft l).
Proof.
  intros [ND Hk]. split.
  - rewrite map_map. simpl. exact ND.
  - intros o (o0 & -> & Ho)%list_elem_of_fmap_1. simpl. by apply Hk.
Qed.

Lemma distinctKnownIds_later n n' l :
  (n ≤ n')%nat → distinctKnownIds Date_now n l → distinctKnownIds Date_now n' l.
Proof.
  intros Hn [ND Hk]. split; [done|].
  intros o Ho. destruct (Hk o Ho) as [H | (k & Hlt & H)]; [by left|].
  right. exists k. split; [lia | done].
Qed.

Section AdvancingClock.

Hypothesis clock_advances : advancingClock Date_now.

(** A recycle gives the replacement the reading of the clock, which no
    live obstacle carries yet. *)
Lemma recycleAt_ids i st :
  distinctKnownIds Date_now (nowCalls (snd st)) (fst st) →
  distinctKnownIds Date_now (nowCalls (snd (recycleAt Math_random Date_now i st)))
    (fst (recycleAt Math_random Date_now i st)).
Proof.
  destruct st as [arr w]. cbn [fst snd]. intros Hd.
  destruct (arr !! i) as [o|] eqn:Hi; [|unfold recycleAt; by rewrite Hi].
  destruct (Qlt_le_dec (x o) (-50)) as [Hx|Hx];
    [|by rewrite (recycleAt_keeps _ _ i arr w o Hi Hx)].
  destruct (recycleAt_recycles Math_random Date_now i arr w o Hi Hx) as (m & _ & ->).
  destruct clock_advances as [Hseed Hmono].
  assert ((Date_now (nowCalls w) =? 0)%Z = false) as Hnz
    by (apply Z.eqb_neq; specialize (Hseed (nowCalls w)); lia).
  unfold replacement. rewrite Hnz. cbn [fst snd withCounters nowCalls].
  destruct Hd as [ND Hk].
  assert (∀ a, a ∈ arr → id a ≠ Date_now (nowCalls w)) as Hfresh.
  { intros a Ha. destruct (Hk a Ha) as [H | (k & Hlt & ->)].
    - specialize (Hseed (nowCalls w)). lia.
    - specialize (Hmono k (nowCalls w) Hlt). lia. }
  split.
  - change (map id ?l) with (id <$> l). rewrite list_fmap_insert. simpl.
    apply NoDup_alt. intros j1 j2 v H1 H2.
    apply list_lookup_insert_Some in H1 as [(-> & <- & _) | (Hne1 & H1)];
      apply list_lookup_insert_Some in H2 as [(E2 & E2' & _) | (Hne2 & H2)];
      try done.
    + exfalso. apply list_lookup_fmap_Some in H2 as (a & E & Ha%list_elem_of_lookup_2).
      by apply (Hfresh a Ha).
    + exfalso. subst v.
      apply list_lookup_fmap_Some in H1 as (a & E & Ha%list_elem_of_lookup_2).
      by apply (Hfresh a Ha).
    + by apply (NoDup_lookup _ _ _ _ ND H1 H2).
  - intros a [j Hj]%list_elem_of_lookup_1.
    apply list_lookup_insert_Some in Hj as [(_ & <- & _) | (_ & Hj)].
    + right. exists (nowCalls w). simpl. split; [lia | done].
    + destruct (Hk a (list_elem_of_lookup_2 _ _ _ Hj)) as [H | (k & Hlt & H)]; [by left|].
      right. exists k. split; [lia | done].
Qed.

Lemma moveObstacles_ids prev w :
  distinctKnownIds Date_now (nowCalls w) prev →
  distinctKnownIds Date_now
    (nowCalls (snd (moveObstacles Math_random Date_now prev w)))
    (fst (moveObstacles Math_random Date_now prev w)).
Proof.
  intros Hd. rewrite moveObstacles_fold.
  apply (foldl_recycleAt_state_invariant
           (fun st => distinctKnownIds Date_now (nowCalls (snd st)) (fst st))).
  - simpl. by apply moveLeft_ids.
  - intros i st. apply recycleAt_ids.
Qed.

Lemma step_ids w e :
  distinctKnownIds Date_now (nowCalls w) (obstacles (signals w)) →
  distinctKnownIds Date_now (nowCalls (step Math_random Date_now w e))
    (obstacles (signals (step Math_random Date_now w e))).
Proof.
  intros Hd. destruct (enabled e w) eqn:En; [|by rewrite step_disabled].
  rewrite step_enabled by done.
  destruct e as [area|key| |player layout| |area| ].
  - unfold mount. cbn -[initGame]. rewrite initGame_mounted by reflexivity.
    apply seeds_ids.
  - by destruct (handleControls_cases key w) as [-> | [[f ->] | ->]].
  - done.
  - destruct (gameActive (signals w)) eqn:Ha.
    + assert (gameActive (signals (withPending takeFrame w)) = true) as Ha' by done.
      destruct (updateGame_shape player layout _ Ha') as (hits & sc & rc & nc & E & ->).
      cbn [requestAnimationFrame addCollisions setObstacles withCounters withPending
           withSignals signals obstacles nowCalls].
      pose proof (moveObstacles_ids (obstacles (signals w))
                    (setPlayerPosition (fun prev => {| y := Qmin 90 (y prev + 0.5) |})
                       (emit Tick (withPending takeFrame w))) Hd) as H.
      cbn [withPending signals] in E. rewrite E in H. exact H.
    + unfold updateGame. cbn [withPending signals]. by rewrite Ha.
  - done.
  - unfold restartTimeout. destruct (gameRef _); [|done].
    destruct (initGame_cases Math_random Date_now area (withPending takeRestartTimeout w))
      as [-> | ->]; [done | apply seeds_ids].
  - unfold onClose. cbn. by destruct (mounted w).
Qed.

Lemma run_ids events :
  distinctKnownIds Date_now (nowCalls (run Math_random Date_now created events))
    (obstacles (signals (run Math_random Date_now created events))).
Proof.
  apply (run_invariant Math_random Date_now
           (fun w => distinctKnownIds Date_now (nowCalls w) (obstacles (signals w)))).
  - split; [constructor | by intros o Ho%elem_of_nil].
  - intros w e. apply step_ids.
Qed.

(** X14.  With a clock of which every reading is later than the one before
    (and later than 3 ms after the epoch), the ids of the live obstacles
    are pairwise distinct along every run: the seeds carry 1, 2, 3 and
    each recycled obstacle carries a reading that no live obstacle
    carries. *)
Theorem ids_distinct_under_advancing_clock (events : list Event) :
  NoDup (map id (obstacles (signals (run Math_random Date_now created events)))).
Proof. apply run_ids. Qed.

(** X19.  With such a clock, while the component is on the page every live
    obstacle is tested against its own two barriers: looking up its ids
    finds the barriers rendered from it, the test of [detectCollisions] on
    it is the test on these two barriers alone, and a collision is reported
    for it exactly when the game is active and that test succeeds. *)
Theorem obstacle_tested_on_own_barriers (events : list Event) (player : DOMRect.t)
    (layout : Style → DOMRect.t) (o : Obstacle) :
  let w := run Math_random Date_now created events in
  mounted w = true →
  o ∈ obstacles (signals w) →
  getElementById (document layout w) (obs_top (id o)) = Some (layout (topStyle o))
  ∧ getElementById (document layout w) (obs_bottom (id o)) = Some (layout (bottomStyle o))
  ∧ hitsObstacle player (document layout w) o = hitsObstacle player (ownBarriers layout o) o
  ∧ (o ∈ reported player (document layout w) w
     ↔ gameActive (signals w) = true
       ∧ hitsObstacle player (ownBarriers layout o) o = true).
Proof.
  intros w Hm Ho. subst w.
  destruct (run_ids events) as [ND _].
  destruct (run_settled events) as [E | (Hr & _)]; [by rewrite E in Hm|].
  set (w := run Math_random Date_now created events) in *.
  pose proof Ho as [i Hi]%list_elem_of_lookup.
  pose proof (NoDup_ids_first _ _ _ ND Hi) as Hfirst.
  assert (getElementById (document layout w) (obs_top (id o)) = Some (layout (topStyle o)))
    as Ht by (unfold document; rewrite Hm; by apply (getElementById_render_top layout _ i)).
  assert (getElementById (document layout w) (obs_bottom (id o))
          = Some (layout (bottomStyle o)))
    as Hb by (unfold document; rewrite Hm; by apply (getElementById_render_bottom layout _ i)).
  pose proof (hitsObstacle_own player layout _ o Ht Hb) as Hown.
  split; [done|]. split; [done|]. split; [done|].
  rewrite reported_eq, Hr. cbn [allRefs playerRef negb orb].
  destruct (gameActive (signals w)).
  - cbn [negb]. rewrite list_elem_of_filter, Hown. tauto.
  - cbn [negb]. split; [by intros ?%elem_of_nil | by intros [? _]].
Qed.

End AdvancingClock.

End FlappyMore.

(* ===================================================================== *)
(** ** The properties above on the Konami code and on runs of the game    *)
(* ===================================================================== *)

Section SecretCodeMoreRuns.
Import SecretCode SecretCodeSession.

(** X1 on the Konami code typed twice: the callback runs at the twentieth
    key, and the first twenty keys end with the code. *)
Lemma firing_closes_an_occurrence_witness :
  fires KONAMI_CODE (repeatPattern 2 KONAMI_CODE) !! 19%nat = Some true
  ∧ KONAMI_CODE `suffix_of` take 20 (repeatPattern 2 KONAMI_CODE)
  ∧ (length KONAMI_CODE ≤ 20)%nat.
Proof.
  assert (fires KONAMI_CODE (repeatPattern 2 KONAMI_CODE) !! 19%nat = Some true) as H
    by (vm_compute; reflexivity).
  split; [exact H|].
  exact (firing_closes_an_occurrence KONAMI_CODE (repeatPattern 2 KONAMI_CODE) 19 H).
Defined.

(** X2 on the Konami code typed once. *)
Lemma short_stream_fires_iff_pattern_witness :
  (length KONAMI_CODE ≤ length KONAMI_CODE)%nat
  ∧ (true ∈ fires KONAMI_CODE KONAMI_CODE ↔ KONAMI_CODE = KONAMI_CODE ∧ KONAMI_CODE ≠ []).
Proof.
  assert (length KONAMI_CODE ≤ length KONAMI_CODE)%nat as H by lia.
  split; [exact H|].
  exact (short_stream_fires_iff_pattern KONAMI_CODE KONAMI_CODE H).
Defined.

(** X3 on the Konami code typed after one other key. *)
Lemma fires_iff_pattern_occurs_witness :
  KONAMI_CODE ≠ []
  ∧ (true ∈ fires KONAMI_CODE ("x" :: KONAMI_CODE) ↔ occursIn KONAMI_CODE ("x" :: KONAMI_CODE)).
Proof.
  assert (KONAMI_CODE ≠ []) as H by discriminate.
  split; [exact H|].
  exact (proj1 (fires_iff_pattern_occurs KONAMI_CODE ("x" :: KONAMI_CODE) H)).
Defined.

End SecretCodeMoreRuns.

Section PageRuns.
Import SecretCode SecretCodeSession PageExamples.

(** X6 on the page: the Konami code, then the up key and a frame.  No exit
    tween has completed, the code occurs among the keys, and the game is
    shown. *)
Lemma konami_reveals_game_witness :
  Page.onCloseCount (Page.run random clock (Page.onMount Page.created) codeThenPlay) = 0%nat
  ∧ occursIn KONAMI_CODE (Page.keys codeThenPlay)
  ∧ App.showSecretGame
      (Page.app (Page.run random clock (Page.onMount Page.created) codeThenPlay)) = true
  ∧ is_Some (Page.game (Page.run random clock (Page.onMount Page.created) codeThenPlay)).
Proof.
  assert (Page.onCloseCount
            (Page.run random clock (Page.onMount Page.created) codeThenPlay) = 0%nat)
    as H0 by (vm_compute; reflexivity).
  assert (occursIn KONAMI_CODE (Page.keys codeThenPlay)) as Hocc
    by (exists [], ["ArrowUp"]; reflexivity).
  pose proof (konami_reveals_game random clock codeThenPlay) as (_ & Hg & _ & Hshow).
  split; [exact H0|]. split; [exact Hocc|].
  split; [exact (Hshow H0 Hocc) | exact (proj1 Hg (Hshow H0 Hocc))].
Defined.

(** X8 on the page: after the Konami code, Escape and the end of the exit
    tween, the game is hidden although the code occurs among the keys;
    the code typed again brings it back. *)
Lemma game_reappears_on_later_firing_witness :
  App.showSecretGame
    (Page.app (Page.run random clock (Page.onMount Page.created) codeThenEscape)) = false
  ∧ Page.onCloseCount
      (Page.run random clock
         (Page.run random clock (Page.onMount Page.created) codeThenEscape) codeAgain)
    = Page.onCloseCount (Page.run random clock (Page.onMount Page.created) codeThenEscape)
  ∧ occursIn KONAMI_CODE (Page.keys codeThenEscape)
  ∧ (∃ j, (length (Page.keys codeThenEscape) ≤ j)%nat
          ∧ fires KONAMI_CODE (Page.keys codeThenEscape ++ Page.keys codeAgain) !! j
            = Some true)
  ∧ App.showSecretGame
      (Page.app (Page.run random clock
                   (Page.run random clock (Page.onMount Page.created) codeThenEscape)
                   codeAgain)) = true.
Proof.
  assert (App.showSecretGame
            (Page.app (Page.run random clock (Page.onMount Page.created) codeThenEscape))
          = false) as Hh by (vm_compute; reflexivity).
  assert (Page.onCloseCount
            (Page.run random clock
               (Page.run random clock (Page.onMount Page.created) codeThenEscape)
               codeAgain)
          = Page.onCloseCount
              (Page.run random clock (Page.onMount Page.created) codeThenEscape)) as Hq
    by (vm_compute; reflexivity).
  assert (∃ j, (length (Page.keys codeThenEscape) ≤ j)%nat
               ∧ fires KONAMI_CODE (Page.keys codeThenEscape ++ Page.keys codeAgain) !! j
                 = Some true) as Hj
    by (exists 20%nat; split; [vm_compute; lia | vm_compute; reflexivity]).
  split; [exact Hh|]. split; [exact Hq|].
  split; [exists [], ["Escape"]; reflexivity|]. split; [exact Hj|].
  exact (proj2 (proj2 (game_reappears_on_later_firing random clock codeThenEscape codeAgain)
                  Hh Hq) Hj).
Defined.

End PageRuns.

Section FlappyMoreRuns.
Import Flappy FlappyLedger FlappyExamples FlappyMoreExamples.
Local Open Scope Q_scope.

Lemma tickingClock_advances : advancingClock tickingClock.
Proof. unfold advancingClock, tickingClock. split; intros; lia. Qed.

(** X13 on the crashed game: the restart timer is pending and its firing
    starts a fresh run. *)
Lemma restart_starts_fresh_run_witness :
  enabled (RestartTimeout area) (run halfRandom tickingClock created untilCrashed) = true
  ∧ score (signals (step halfRandom tickingClock
                      (run halfRandom tickingClock created untilCrashed)
                      (RestartTimeout area))) = 0%Z
  ∧ gameActive (signals (step halfRandom tickingClock
                           (run halfRandom tickingClock created untilCrashed)
                           (RestartTimeout area))) = true.
Proof.
  assert (enabled (RestartTimeout area) (run halfRandom tickingClock created untilCrashed)
          = true) as En by (vm_compute; reflexivity).
  split; [exact En|].
  pose proof (restart_starts_fresh_run halfRandom tickingClock untilCrashed area En)
    as (H1 & _ & H3 & _).
  split; [exact H1 | exact H3].
Defined.

(** X14 on the run that recycles the first obstacle, with the clock that
    advances by one millisecond at each reading. *)
Lemma ids_distinct_under_advancing_clock_witness :
  advancingClock tickingClock
  ∧ NoDup (map id (obstacles (signals
             (run halfRandom tickingClock created
                (untilThreshold ++ [AnimationFrame playerInGap layout]))))).
Proof.
  split; [exact tickingClock_advances|].
  exact (ids_distinct_under_advancing_clock halfRandom tickingClock tickingClock_advances
           (untilThreshold ++ [AnimationFrame playerInGap layout])).
Defined.

(** X15 on the freshly mounted game and three frames: the player falls
    from 50 to 51.5. *)
Lemma frames_keep_active_game_falling_witness :
  Forall isFrame threeFrames
  ∧ gameActive (signals (go created [Mount area])) = true
  ∧ (0 < animationFrames (pending (go created [Mount area])))%nat
  ∧ y (playerPosition (signals (go created [Mount area]))) <= 90
  ∧ gameActive (signals (run halfRandom tickingClock (go created [Mount area]) threeFrames))
    = true
  ∧ y (playerPosition
         (signals (run halfRandom tickingClock (go created [Mount area]) threeFrames)))
    == Qmin 90 (y (playerPosition (signals (go created [Mount area])))
                + (Z.of_nat (length threeFrames) # 2)).
Proof.
  assert (Forall isFrame threeFrames) as Hfr by (apply Forall_replicate; exact I).
  assert (gameActive (signals (go created [Mount area])) = true) as Ha
    by (vm_compute; reflexivity).
  assert (0 < animationFrames (pending (go created [Mount area])))%nat as Hf
    by (vm_compute; lia).
  assert (y (playerPosition (signals (go created [Mount area]))) <= 90) as Hy
    by (vm_compute; discriminate).
  split; [exact Hfr|]. split; [exact Ha|]. split; [exact Hf|]. split; [exact Hy|].
  pose proof (frames_keep_active_game_falling halfRandom tickingClock
                (go created [Mount area]) threeFrames Hfr Ha Hf Hy) as (H1 & _ & H3 & _).
  split; [exact H1 | exact H3].
Defined.

(** X16 on the crashed game: two stale frames and two key presses leave
    the signals and the trace as they are. *)
Lemma inactive_game_ignores_frames_and_keys_witness :
  Forall isFrameOrKey idleEvents
  ∧ gameActive (signals (run halfRandom tickingClock created untilCrashed)) = false
  ∧ signals (run halfRandom tickingClock
               (run halfRandom tickingClock created untilCrashed) idleEvents)
    = signals (run halfRandom tickingClock created untilCrashed)
  ∧ trace (run halfRandom tickingClock
             (run halfRandom tickingClock created untilCrashed) idleEvents)
    = trace (run halfRandom tickingClock created untilCrashed).
Proof.
  assert (Forall isFrameOrKey idleEvents) as Hev by (repeat constructor).
  assert (gameActive (signals (run halfRandom tickingClock created untilCrashed)) = false)
    as Ha by (vm_compute; reflexivity).
  split; [exact Hev|]. split; [exact Ha|].
  pose proof (inactive_game_ignores_frames_and_keys halfRandom tickingClock
                (run halfRandom tickingClock created untilCrashed) idleEvents Hev Ha)
    as (H1 & H2 & _).
  split; [exact H1 | exact H2].
Defined.

(** X19 on the freshly mounted game and its first obstacle. *)
Lemma obstacle_tested_on_own_barriers_witness :
  advancingClock tickingClock
  ∧ mounted (run halfRandom tickingClock created [Mount area]) = true
  ∧ seedObstacle ∈ obstacles (signals (run halfRandom tickingClock created [Mount area]))
  ∧ getElementById (document layout (run halfRandom tickingClock created [Mount area]))
      (obs_top (id seedObstacle))
    = Some (layout (topStyle seedObstacle))
  ∧ hitsObstacle playerInGap
      (document layout (run halfRandom tickingClock created [Mount area])) seedObstacle
    = hitsObstacle playerInGap (ownBarriers layout seedObstacle) seedObstacle.
Proof.
  assert (mounted (run halfRandom tickingClock created [Mount area]) = true) as Hm
    by (vm_compute; reflexivity).
  assert (seedObstacle
          ∈ obstacles (signals (run halfRandom tickingClock created [Mount area]))) as Ho.
  { apply list_elem_of_lookup. exists 0%nat. vm_compute. reflexivity. }
  split; [exact tickingClock_advances|]. split; [exact Hm|]. split; [exact Ho|].
  pose proof (obstacle_tested_on_own_barriers halfRandom tickingClock tickingClock_advances
                [Mount area] playerInGap layout seedObstacle Hm Ho) as (H1 & _ & H3 & _).
  split; [exact H1 | exact H3].
Defined.

(** X20 on the freshly mounted game, where the player is at 50. *)
Lemma up_and_down_cancel_away_from_edges_witness :
  gameActive (signals (go created [Mount area])) = true
  ∧ 0 <= y (playerPosition (signals (go created [Mount area]))) <= 90
  ∧ y (playerPosition
         (signals (handleControls "ArrowDown"
                     (handleControls "ArrowUp" (go created [Mount area])))))
    == y (playerPosition (signals (go created [Mount area])))
  ∧ handleControls " " (go created [Mount area])
    = handleControls "ArrowUp" (go created [Mount area]).
Proof.
  assert (gameActive (signals (go created [Mount area])) = true) as Ha
    by (vm_compute; reflexivity).
  assert (0 <= y (playerPosition (signals (go created [Mount area]))) <= 90) as Hy
    by (split; vm_compute; discriminate).
  split; [exact Ha|]. split; [exact Hy|].
  pose proof (up_and_down_cancel_away_from_edges (go created [Mount area]) Ha Hy)
    as (H1 & _ & H3 & _).
  split; [apply H1; vm_compute; discriminate | exact H3].
Defined.

End FlappyMoreRuns.
